(** * tssrp6a: big-integer utilities, verifier creation and the
      post-handshake encryption layer

    A shallow embedding of [src/utils.ts] (bigint/byte conversion, [hash],
    [modPow], [createVerifier]) and [src/encryption.ts] ([deriveKeys],
    [generateIV], [xorCrypt], [computeMAC], [encrypt], [decrypt]), followed
    by the properties proved about them.

    Conventions of the embedding:
    - a [bigint] is a [Z];
    - an [ArrayBuffer] / [Uint8Array] is a [list byte]; reads are stdpp's
      list lookup (an out-of-range read is [None], JavaScript's [undefined]),
      writes are stdpp's list insert (an out-of-range write to a typed array
      is dropped, exactly like [<[i:=x]>]);
    - a JavaScript string is the list of its UTF-16 code units;
    - a [throw] is the left injection of a sum; promises are awaited in
      program order and therefore disappear;
    - the [while] loop of [modPow] carries a bound on its iterations, and
      termination is a theorem about that bound;
    - the two sources of randomness, [Math.random] and
      [crossEnvCrypto.randomBytes], are separate components of an explicit
      world state;
    - the platform digests are the fields of a record, constrained only by
      their output lengths. *)

From Stdlib Require Import ZArith QArith Qround Lia List Bool String.
From Stdlib.Strings Require Import Byte Ascii.
From stdpp Require Import base list.
Import ListNotations.

Local Open Scope Z_scope.

(** ** Numbers, bytes and strings *)

Definition bigint := Z.
Bind Scope Z_scope with bigint.

(** A string is the sequence of its UTF-16 code units. *)
Definition jsstring := list Z.

(** Code units of a literal made of ASCII characters only. *)
Definition lit (s : string) : jsstring :=
  map (fun a => Z.of_N (Ascii.N_of_ascii a)) (list_ascii_of_string s).

(** The numeric value of an element of a [Uint8Array]. *)
Definition byte_val (b : byte) : Z := Z.of_N (Byte.to_N b).

(** Storing a number into a [Uint8Array] element (ToUint8): reduction
    modulo 256. *)
Definition u8 (v : Z) : byte :=
  match Byte.of_N (Z.to_N (v mod 256)) with
  | Some b => b
  | None => x00
  end.

(** Errors thrown by the modelled functions, one constructor per
    [new Error(...)] site (and one for the [SyntaxError] of [BigInt]). *)
Inductive error : Type :=
| InvalidBase (x : Z)            (* "Invalid base: " *)
| InvalidPower (pow : Z)         (* "Invalid power: " *)
| InvalidModulo (m : Z)          (* "Invalid modulo: " *)
| IdentityNullOrEmpty            (* "Identity (I) must not be null or empty." *)
| SaltNull                       (* "Salt (s) must not be null." *)
| PasswordNull                   (* "Password (P) must not be null" *)
| CiphertextTooShort             (* "Ciphertext too short (must include 16-byte auth tag)" *)
| AuthTagMismatch                (* "Decryption failed (authentication tag mismatch)" *)
| BigIntSyntaxError.             (* SyntaxError raised by BigInt(string) *)

Definition result (A : Type) : Type := error + A.

(** ** [modPow] *)

Module ModPow.

Definition ZERO : bigint := 0.
Definition ONE : bigint := 1.
Definition TWO : bigint := 2.

(** The local variables the [while] loop updates. *)
Record loop_state : Type := LoopState
  { ls_x : bigint; ls_pow : bigint; ls_result : bigint }.

(** One execution of the loop body.  [%] and [/] on bigints truncate
    towards zero: [Z.rem] and [Z.quot]. *)
Definition loop_body (mod_ : bigint) (st : loop_state) : loop_state :=
  if Z.rem (ls_pow st) TWO =? ONE then
    {| ls_x := ls_x st;
       ls_pow := ls_pow st - ONE;
       ls_result := Z.rem (ls_x st * ls_result st) mod_ |}
  else
    {| ls_x := Z.rem (ls_x st * ls_x st) mod_;
       ls_pow := Z.quot (ls_pow st) TWO;
       ls_result := ls_result st |}.

(** [while (pow > ZERO) { body }], with a bound on the number of
    iterations; [None] when the bound is reached with the guard still
    true. *)
Fixpoint while_loop (fuel : nat) (mod_ : bigint) (st : loop_state)
  : option loop_state :=
  if ls_pow st >? ZERO then
    match fuel with
    | O => None
    | S fuel' => while_loop fuel' mod_ (loop_body mod_ st)
    end
  else Some st.

Definition modPow (fuel : nat) (x pow mod_ : bigint)
  : option (result bigint) :=
  if x <? ZERO then Some (inl (InvalidBase x))
  else if pow <? ZERO then Some (inl (InvalidPower pow))
  else if mod_ <? ONE then Some (inl (InvalidModulo mod_))
  else
    match while_loop fuel mod_
            {| ls_x := x; ls_pow := pow; ls_result := ONE |} with
    | Some st => Some (inr (ls_result st))
    | None => None
    end.

End ModPow.

(** ** JavaScript built-ins used by the sources

    These are platform functions, not code of the repository; each is
    modelled after its ECMAScript / WHATWG definition on the inputs the
    sources give it. *)

Module Js.

(** [for (let i = 0; i < n; i++) body], threading the updated locals. *)
Definition for_loop {St : Type} (n : nat) (body : nat -> St -> St)
    (init : St) : St :=
  fold_left (fun st i => body i st) (seq 0 n) init.

(** [new Uint8Array(n)]: [n] zero bytes. *)
Definition zeros (n : nat) : list byte := replicate n x00.

(** [a[i] = v] on a [Uint8Array]: [NaN] ([None]) is stored as 0, other
    numbers modulo 256; an index outside the array is ignored. *)
Definition store (a : list byte) (i : nat) (v : option Z) : list byte :=
  <[ i := u8 (default 0 v) ]> a.

(** [i % len] on Numbers used as an index: [NaN] when [len] is 0. *)
Definition index_rem (i len : nat) : option nat :=
  match len with
  | O => None
  | S _ => Some (i mod len)%nat
  end.

(** [a[idx]] on a [Uint8Array]: [undefined] for [NaN] and for indices
    outside the array. *)
Definition get (a : list byte) (idx : option nat) : option Z :=
  match idx with
  | Some i => byte_val <$> a !! i
  | None => None
  end.

(** [x ^ y] where the operands are bytes or [undefined]; ToInt32 sends
    [undefined] to 0 and leaves a byte value unchanged. *)
Definition xor (x y : option Z) : Z := Z.lxor (default 0 x) (default 0 y).

(** [x === y] on elements read from two [Uint8Array]s. *)
Definition strict_eq (x y : option byte) : bool :=
  match x, y with
  | Some a, Some b => Byte.eqb a b
  | None, None => true
  | _, _ => false
  end.

(** [target.set(source, offset)] for [offset + source.length <=
    target.length]; every call in the sources allocates [target] so that
    this holds, the [RangeError] of the other case is not modelled. *)
Definition set (target source : list byte) (offset : nat) : list byte :=
  take offset target ++ source ++ drop (offset + length source) target.

(** [a.slice(start, end)] with [0 <= start] and [0 <= end]. *)
Definition slice {A : Type} (l : list A) (start end_ : nat) : list A :=
  take (end_ - start) (drop start l).

(** [s.slice(-k)]: the last [k] elements. *)
Definition slice_last {A : Type} (l : list A) (k : nat) : list A :=
  drop (length l - k) l.

(** Digits *)

Definition hex_digit_char (d : Z) : Z :=
  if d <? 10 then 48 + d else 87 + d.

Definition hex_digit_val (c : Z) : option Z :=
  if (48 <=? c) && (c <=? 57) then Some (c - 48)
  else if (97 <=? c) && (c <=? 102) then Some (c - 87)
  else if (65 <=? c) && (c <=? 70) then Some (c - 55)
  else None.

Fixpoint hex_digits_aux (fuel : nat) (n : Z) (acc : list Z) : list Z :=
  match fuel with
  | O => acc
  | S fuel' =>
      if n <? 16 then n :: acc
      else hex_digits_aux fuel' (n / 16) (n mod 16 :: acc)
  end.

(** Base-16 digits of [n >= 0], most significant first, no leading zero
    ([0] has the single digit 0).  The number of digits never exceeds the
    number of bits, which bounds the recursion. *)
Definition hex_digits (n : Z) : list Z :=
  hex_digits_aux (S (Z.to_nat (Z.log2 n))) n [].

(** [n.toString(16)] for a bigint or an integral Number. *)
Definition toString16 (n : Z) : jsstring :=
  if n <? 0 then 45 :: map hex_digit_char (hex_digits (- n))
  else map hex_digit_char (hex_digits n).

(** White space and line terminators (what [trim], [parseInt] and
    [BigInt] skip). *)
Definition is_whitespace (c : Z) : bool :=
  (c =? 9) || (c =? 10) || (c =? 11) || (c =? 12) || (c =? 13)
  || (c =? 32) || (c =? 160) || (c =? 5760)
  || ((8192 <=? c) && (c <=? 8202))
  || (c =? 8232) || (c =? 8233) || (c =? 8239) || (c =? 8287)
  || (c =? 12288) || (c =? 65279).

Fixpoint trim_start (s : jsstring) : jsstring :=
  match s with
  | c :: s' => if is_whitespace c then trim_start s' else s
  | [] => []
  end.

Definition trim_end (s : jsstring) : jsstring := rev (trim_start (rev s)).

(** [s.trim()] *)
Definition trim (s : jsstring) : jsstring := trim_end (trim_start s).

(** The longest prefix of hexadecimal digits, as digit values. *)
Fixpoint hex_prefix (s : jsstring) : list Z :=
  match s with
  | c :: s' =>
      match hex_digit_val c with
      | Some d => d :: hex_prefix s'
      | None => []
      end
  | [] => []
  end.

Definition digits_value (ds : list Z) : Z :=
  fold_left (fun acc d => acc * 16 + d) ds 0.

(** The optional [0x] / [0X] prefix. *)
Definition strip_0x (s : jsstring) : jsstring :=
  match s with
  | c0 :: c1 :: s' =>
      if (c0 =? 48) && ((c1 =? 120) || (c1 =? 88)) then s' else s
  | _ => s
  end.

(** [parseInt(s, 16)]; [None] is [NaN].  (The result is exact below
    2^53, far above the two-digit inputs of the sources.) *)
Definition parseInt16 (s : jsstring) : option Z :=
  let s1 := trim_start s in
  let '(sign, s2) :=
    match s1 with
    | c :: r =>
        if c =? 45 then (-1, r)          (* "-" *)
        else if c =? 43 then (1, r)      (* "+" *)
        else (1, s1)
    | [] => (1, s1)
    end in
  match hex_prefix (strip_0x s2) with
  | [] => None
  | ds => Some (sign * digits_value ds)
  end.

(** [BigInt("0x" + h)]: [h], up to trailing white space, must be a
    non-empty string of hexadecimal digits; otherwise a [SyntaxError]. *)
Definition BigInt_0x (h : jsstring) : result bigint :=
  let h' := trim_end h in
  let ds := hex_prefix h' in
  if (negb (length ds =? 0)%nat) && (length ds =? length h')%nat
  then inr (digits_value ds)
  else inl BigIntSyntaxError.

(** UTF-8 encoding of one code point. *)
Definition utf8_code_point (cp : Z) : list byte :=
  if cp <? 128 then [u8 cp]
  else if cp <? 2048 then
    [u8 (Z.lor 192 (Z.shiftr cp 6)); u8 (Z.lor 128 (Z.land cp 63))]
  else if cp <? 65536 then
    [u8 (Z.lor 224 (Z.shiftr cp 12));
     u8 (Z.lor 128 (Z.land (Z.shiftr cp 6) 63));
     u8 (Z.lor 128 (Z.land cp 63))]
  else
    [u8 (Z.lor 240 (Z.shiftr cp 18));
     u8 (Z.lor 128 (Z.land (Z.shiftr cp 12) 63));
     u8 (Z.lor 128 (Z.land (Z.shiftr cp 6) 63));
     u8 (Z.lor 128 (Z.land cp 63))].

Definition is_high_surrogate (c : Z) : bool := (55296 <=? c) && (c <=? 56319).
Definition is_low_surrogate (c : Z) : bool := (56320 <=? c) && (c <=? 57343).

(** [new TextEncoder().encode(s)]: surrogate pairs are combined, a lone
    surrogate becomes U+FFFD. *)
Fixpoint TextEncoder_encode (s : jsstring) : list byte :=
  match s with
  | [] => []
  | c :: rest =>
      if is_high_surrogate c then
        match rest with
        | d :: rest' =>
            if is_low_surrogate d then
              utf8_code_point (65536 + (c - 55296) * 1024 + (d - 56320))
                ++ TextEncoder_encode rest'
            else utf8_code_point 65533 ++ TextEncoder_encode rest
        | [] => utf8_code_point 65533
        end
      else if is_low_surrogate c then
        utf8_code_point 65533 ++ TextEncoder_encode rest
      else utf8_code_point c ++ TextEncoder_encode rest
  end.

End Js.

(** ** Randomness

    [Math.random] and the platform CSPRNG behind
    [crossEnvCrypto.randomBytes] are two independent sources.  Each is an
    infinite sequence of outcomes with a cursor; a draw returns the outcome
    under the cursor and advances it. *)

Record World : Type := mkWorld
  { math_random_seq : nat -> Q;      (* doubles in [0,1), as rationals *)
    math_random_pos : nat;
    csprng_seq : nat -> byte;
    csprng_pos : nat }.

Module Random.

(** [Math.random()] *)
Definition Math_random (w : World) : Q * World :=
  (math_random_seq w (math_random_pos w),
   {| math_random_seq := math_random_seq w;
      math_random_pos := S (math_random_pos w);
      csprng_seq := csprng_seq w;
      csprng_pos := csprng_pos w |}).

(** [Math.floor(r * 256)]; the product of a double in [0,1) with 256 is
    exact, so the rational computation is the floating-point one. *)
Definition floor_times_256 (r : Q) : Z := Qfloor (inject_Z 256 * r)%Q.

(** [crossEnvCrypto.randomBytes(array)] ([getRandomValues] or
    [randomFillSync]): overwrites every element of [array] with the next
    bytes of the CSPRNG. *)
Definition randomBytes (array : list byte) (w : World) : list byte * World :=
  (map (fun i => csprng_seq w (i + csprng_pos w)%nat) (seq 0 (length array)),
   {| math_random_seq := math_random_seq w;
      math_random_pos := math_random_pos w;
      csprng_seq := csprng_seq w;
      csprng_pos := (length array + csprng_pos w)%nat |}).

End Random.

(** ** [cross-env-crypto.ts] and [SRPParameters] *)

Definition HashFunction := list byte -> list byte.

(** [crossEnvCrypto.hashFunctions]: the four digests, each delegating to
    the platform ([subtle.digest], node-forge or [createHash]). *)
Record CompatibleCrypto : Type := mkCrypto
  { SHA1 : HashFunction;
    SHA256 : HashFunction;
    SHA384 : HashFunction;
    SHA512 : HashFunction }.

(** What the platform digests guarantee about their output length. *)
Definition digest_lengths (c : CompatibleCrypto) : Prop :=
  (forall d, length (SHA1 c d) = 20%nat) /\
  (forall d, length (SHA256 c d) = 32%nat) /\
  (forall d, length (SHA384 c d) = 48%nat) /\
  (forall d, length (SHA512 c d) = 64%nat).

(** Modelled from the spec: the class [SRPParameters] ([src/parameters.ts]
    is not among the sources).  "SRPParameters -- immutable configuration:
    the safe prime N, generator g, and selected hash function H."  No
    function modelled here reads the group, so the record keeps the hash
    selection only. *)
Record SRPParameters : Type := mkParameters
  { H : HashFunction }.

(** The hash selections a session may be configured with. *)
Definition supported_hash (c : CompatibleCrypto) (h : HashFunction) : Prop :=
  h = SHA1 c \/ h = SHA256 c \/ h = SHA384 c \/ h = SHA512 c.

(** Modelled from the spec: [new SRPParameters()] without arguments.
    "Default group is a 2048-bit MODP group matching RFC 5054 Appendix A
    with H=SHA-512", the digest being the [SHA512] entry of
    [crossEnvCrypto.hashFunctions]. *)
Definition new_SRPParameters (crossEnvCrypto : CompatibleCrypto)
  : SRPParameters :=
  {| H := SHA512 crossEnvCrypto |}.

(** ** [utils.ts]: conversions, hashing, random values *)

Definition bigIntToArrayBuffer (n : bigint) : list byte :=
  let hex := Js.toString16 n in
  let byteLength := ((length hex + 1) / 2)%nat in   (* Math.ceil(hex.length / 2) *)
  let u8_0 := Js.zeros byteLength in
  let '(u8_1, offset) :=
    if negb (length hex mod 2 =? 0)%nat
    then (Js.store u8_0 0 (Js.parseInt16 (Js.slice hex 0 1)), 1%nat) (* hex[0] *)
    else (u8_0, 0%nat) in
  Js.for_loop byteLength
    (fun i arr =>
       Js.store arr (i + offset)
         (Js.parseInt16 (Js.slice hex (2 * i + offset) (2 * i + 2 + offset))))
    u8_1.

Definition arrayBufferToBigInt (arrayBuffer : list byte) : result bigint :=
  let hex :=
    fold_left
      (fun hex i => hex ++ [Js.slice_last (48 :: Js.toString16 (byte_val i)) 2])
      arrayBuffer [] in
  Js.BigInt_0x (concat hex).

Definition stringToArrayBuffer (str : jsstring) : list byte :=
  Js.TextEncoder_encode str.

Definition padStartArrayBuffer (arrayBuffer : list byte) (targetLength : nat)
  : list byte :=
  if (length arrayBuffer <? targetLength)%nat then
    Js.set (Js.zeros targetLength) arrayBuffer
      (targetLength - length arrayBuffer)
  else arrayBuffer.

Definition hash (parameters : SRPParameters) (arrays : list (list byte))
  : list byte :=
  let length_ := fold_left (fun p c => (p + length c)%nat) arrays 0%nat in
  let '(target, _) :=
    Js.for_loop (length arrays)
      (fun i '(target, offset) =>
         let a := default [] (arrays !! i) in
         (Js.set target a offset, (offset + length a)%nat))
      (Js.zeros length_, 0%nat) in
  H parameters target.

Definition generateRandom (numBytes : nat) (w : World) : list byte * World :=
  Random.randomBytes (Js.zeros numBytes) w.


(** ** [utils.ts]: verifier creation *)

(** Modelled from the spec: the class [SRPRoutines] ([src/routines.ts] is
    not among the sources), "stateless service bound to one SRPParameters"
    that "exposes pure functions", among them [x = H(s || H(I || ":" || P))]
    and [v = g^x mod N], and "generateRandomSalt(byteLen?): random salt of
    specified byte length".  The formulas themselves are left abstract. *)
Record SRPRoutines : Type := mkRoutines
  { parameters : SRPParameters;
    computeX : jsstring -> bigint -> jsstring -> bigint;
    computeVerifier : bigint -> bigint;
    generateRandomSalt : option nat -> World -> bigint * World }.

(** JavaScript truthiness of the three kinds of argument; [None] stands for
    [null] and [undefined]. *)
Definition truthy_string (s : option jsstring) : bool :=
  match s with
  | Some (_ :: _) => true
  | _ => false
  end.

Definition truthy_bigint (n : option bigint) : bool :=
  match n with
  | Some v => negb (v =? 0)
  | None => false
  end.

Definition createVerifier (routines : SRPRoutines)
    (I : option jsstring) (s : option bigint) (P : option jsstring)
  : result bigint :=
  if negb (truthy_string I) || negb (truthy_string (Js.trim <$> I)) then
    inl IdentityNullOrEmpty
  else if negb (truthy_bigint s) then inl SaltNull
  else if negb (truthy_string P) then inl PasswordNull
  else
    let x := computeX routines (default [] I) (default 0 s) (default [] P) in
    inr (computeVerifier routines x).

Record IVerifierAndSalt : Type := mkVerifierAndSalt
  { v : bigint; s : bigint }.

Definition createVerifierAndSalt (routines : SRPRoutines)
    (I P : option jsstring) (sBytes : option nat) (w : World)
  : result IVerifierAndSalt * World :=
  let '(s, w') := generateRandomSalt routines sBytes w in
  (match createVerifier routines I (Some s) P with
   | inr v => inr {| s := s; v := v |}
   | inl e => inl e
   end, w').

(** ** [encryption.ts] *)

Inductive Data : Type :=
| DataString (s : jsstring)
| DataBuffer (b : list byte).

(** "Convert data to bytes": the bytes [encrypt] works on. *)
Definition plaintext_bytes (data : Data) : list byte :=
  match data with
  | DataString s => Js.TextEncoder_encode s
  | DataBuffer b => b
  end.

Record Keys : Type := mkKeys { encKey : list byte; macKey : list byte }.

Record EncryptedMessage : Type := mkEncrypted
  { iv : list byte; ciphertext : list byte }.

Section Encryption.

(** The module-level [crossEnvCrypto] object. *)
Variable crossEnvCrypto : CompatibleCrypto.

Definition deriveKeys (S : bigint) : Keys :=
  let params := new_SRPParameters crossEnvCrypto in
  let sBytes := bigIntToArrayBuffer S in
  let encKey :=
    hash params [sBytes; Js.TextEncoder_encode (lit "encryption")] in
  let macKey :=
    hash params [sBytes; Js.TextEncoder_encode (lit "authentication")] in
  {| encKey := encKey; macKey := macKey |}.

Definition generateIV (w : World) : list byte * World :=
  Js.for_loop 16
    (fun i '(iv, w) =>
       let '(r, w') := Random.Math_random w in
       (Js.store iv i (Some (Random.floor_times_256 r)), w'))
    (Js.zeros 16, w).

(** The value written to [keyStream[i]]. *)
Definition keystream_byte (key iv : list byte) (i : nat) : Z :=
  Js.xor (Js.get key (Js.index_rem i (length key)))
         (Js.get iv (Js.index_rem i (length iv))).

Definition xorCrypt (data key iv : list byte) : list byte :=
  let result := Js.zeros (length data) in
  let keyStream := Js.zeros (length data) in
  let keyStream :=
    Js.for_loop (length data)
      (fun i keyStream =>
         Js.store keyStream i (Some (keystream_byte key iv i)))
      keyStream in
  Js.for_loop (length data)
    (fun i result =>
       Js.store result i
         (Some (Js.xor (Js.get data (Some i)) (Js.get keyStream (Some i)))))
    result.

Definition computeMAC (macKey iv ciphertext : list byte) : list byte :=
  let params := new_SRPParameters crossEnvCrypto in
  hash params [macKey; iv; ciphertext].

Definition encrypt (sessionKey : bigint) (data : Data) (w : World)
  : EncryptedMessage * World :=
  let '(mkKeys encKey macKey) := deriveKeys sessionKey in
  let '(iv, w') := generateIV w in
  let plaintext := plaintext_bytes data in
  let encrypted := xorCrypt plaintext encKey iv in
  let mac := computeMAC macKey iv encrypted in
  let tag := Js.slice mac 0 16 in
  let combined := Js.zeros (length encrypted + length tag) in
  let combined := Js.set combined encrypted 0 in
  let combined := Js.set combined tag (length encrypted) in
  ({| iv := iv; ciphertext := combined |}, w').

Definition decrypt (sessionKey : bigint) (iv ciphertext : list byte)
  : result (list byte) :=
  let '(mkKeys encKey macKey) := deriveKeys sessionKey in
  let ctBuffer := ciphertext in
  if (length ctBuffer <? 16)%nat then inl CiphertextTooShort
  else
    let actualCiphertext := Js.slice ctBuffer 0 (length ctBuffer - 16) in
    let receivedTag := Js.slice ctBuffer (length ctBuffer - 16) (length ctBuffer) in
    let computedMAC := computeMAC macKey iv actualCiphertext in
    let computedTag := Js.slice computedMAC 0 16 in
    let tagMatch :=
      Js.for_loop 16
        (fun i tagMatch =>
           if negb (Js.strict_eq (receivedTag !! i) (computedTag !! i))
           then false else tagMatch)
        true in
    if negb tagMatch then inl AuthTagMismatch
    else inr (xorCrypt actualCiphertext encKey iv).

End Encryption.

(** ** Specification-level functions *)

(** The number a byte string denotes, most significant byte first. *)
Definition be_value (bs : list byte) : Z :=
  fold_left (fun acc b => acc * 256 + byte_val b) bs 0.

(** Two hexadecimal digits per byte, high digit first. *)
Fixpoint pair_bytes (ds : list Z) : list byte :=
  match ds with
  | h :: l :: rest => u8 (16 * h + l) :: pair_bytes rest
  | _ => []
  end.

Definition is_hex_digit (d : Z) : Prop := 0 <= d < 16.

(** The hexadecimal digits of a byte string, two per byte. *)
Definition nibbles (bs : list byte) : list Z :=
  flat_map (fun b => [byte_val b / 16; byte_val b mod 16]) bs.

(** An odd number of digits is completed by a leading zero. *)
Definition pad_even (ds : list Z) : list Z :=
  if (length ds mod 2 =? 0)%nat then ds else 0 :: ds.

(** Key derivation and tag computation with a given hash [h]. *)
Definition derive_with (h : HashFunction) (S : bigint) : Keys :=
  {| encKey := h (bigIntToArrayBuffer S
                    ++ Js.TextEncoder_encode (lit "encryption"));
     macKey := h (bigIntToArrayBuffer S
                    ++ Js.TextEncoder_encode (lit "authentication")) |}.

Definition mac_with (h : HashFunction) (macKey iv ciphertext : list byte)
  : list byte :=
  h (macKey ++ iv ++ ciphertext).

(** "The encryption layer computes its key derivation and authentication
    tag with the hash configured in the session's parameters", for every
    supported selection. *)
Definition uses_configured_hash (c : CompatibleCrypto) : Prop :=
  forall session : SRPParameters,
    supported_hash c (H session) ->
    forall (S : bigint) (macKey iv ct : list byte),
      deriveKeys c S = derive_with (H session) S /\
      computeMAC c macKey iv ct = mac_with (H session) macKey iv ct.

(** Bounds and invariant of the loop of [modPow]. *)

(** An upper bound on the number of iterations the loop runs for exponent
    [pow]: two per bit. *)
Definition iterations_bound (pow : Z) : Z :=
  if pow <=? 0 then 0 else 2 * Z.log2 pow + 1 + Z.b2z (Z.odd pow).

(** The loop invariant of square-and-multiply. *)
Definition loop_inv (m base exp : Z) (st : ModPow.loop_state) : Prop :=
  0 <= ModPow.ls_x st /\ 0 <= ModPow.ls_pow st /\ 0 <= ModPow.ls_result st /\
  (ModPow.ls_result st < m \/ (ModPow.ls_result st = 1 /\ 0 < ModPow.ls_pow st)) /\
  (ModPow.ls_result st * ModPow.ls_x st ^ ModPow.ls_pow st) mod m = (base ^ exp) mod m.

(** The identity is null, or empty once trimmed. *)
Definition blank_identity (I : option jsstring) : Prop :=
  match I with
  | None => True
  | Some i => Js.trim i = []
  end.

(** The arguments [createVerifier] is said to reject: "I is null or empty
    after trimming, P is null, or the salt s is null". *)
Definition claimed_rejection (I : option jsstring) (s : option bigint)
    (P : option jsstring) : Prop :=
  blank_identity I \/ P = None \/ s = None.

(** The arguments it rejects: a zero salt and an empty password are falsy
    too. *)
Definition rejected (I : option jsstring) (s : option bigint)
    (P : option jsstring) : Prop :=
  blank_identity I \/ (s = None \/ s = Some 0) \/ (P = None \/ P = Some []).

(** ** A concrete platform for examples

    Stand-ins for the platform digests, with the output lengths of the real
    ones, and a world whose random sources are fixed sequences. *)

Definition toy_digest (n : nat) (d : list byte) : list byte :=
  map (fun i =>
         u8 (fold_left (fun acc b => acc * 31 + byte_val b + Z.of_nat i) d 7))
      (seq 0 n).

Definition toy_crypto : CompatibleCrypto :=
  {| SHA1 := toy_digest 20; SHA256 := toy_digest 32;
     SHA384 := toy_digest 48; SHA512 := toy_digest 64 |}.

Definition toy_world : World :=
  {| math_random_seq := fun i => (Z.of_nat (i * 37 + 5) mod 100 # 100)%Q;
     math_random_pos := 0;
     csprng_seq := fun i => u8 (Z.of_nat (i * 91 + 17));
     csprng_pos := 0 |}.

Definition toy_routines : SRPRoutines :=
  {| parameters := new_SRPParameters toy_crypto;
     computeX := fun I s P => s + Z.of_nat (length I) + Z.of_nat (length P);
     computeVerifier := fun x => 5 ^ (x mod 22) mod 23;
     generateRandomSalt := fun numBytes w =>
       let '(buf, w') := generateRandom (default 16%nat numBytes) w in
       (be_value buf, w') |}.

(** ** [utils.ts]: the remaining functions *)

Definition hashPadded (parameters : SRPParameters) (targetLen : nat)
    (arrays : list (list byte)) : list byte :=
  let arraysPadded :=
    map (fun arrayBuffer => padStartArrayBuffer arrayBuffer targetLen) arrays in
  hash parameters arraysPadded.


Definition hashBitCount (parameters : SRPParameters) : nat :=
  (length (hash parameters [bigIntToArrayBuffer 1]) * 8)%nat.

(** ** [TextDecoder]

    [new TextDecoder().decode(buffer)]: the UTF-8 decoder of the WHATWG
    Encoding standard in replacement mode, [ignoreBOM] false.  A byte that
    cannot continue the sequence under way ends it with U+FFFD and is read
    again as the start of a new sequence. *)

Module Utf8.

Definition REPLACEMENT : Z := 65533.

Definition in_range (lo hi : Z) (b : byte) : bool :=
  (lo <=? byte_val b) && (byte_val b <=? hi).

(** Appending the six payload bits of a continuation byte. *)
Definition push (cp : Z) (b : byte) : Z :=
  Z.lor (Z.shiftl cp 6) (Z.land (byte_val b) 63).

(** The code points of a byte sequence. *)
Fixpoint code_points (bs : list byte) : list Z :=
  match bs with
  | [] => []
  | b :: r =>
      let x := byte_val b in
      if x <=? 127 then x :: code_points r
      else if (194 <=? x) && (x <=? 223) then
        match r with
        | c1 :: r1 =>
            if in_range 128 191 c1
            then push (Z.land x 31) c1 :: code_points r1
            else REPLACEMENT :: code_points r
        | [] => [REPLACEMENT]
        end
      else if (224 <=? x) && (x <=? 239) then
        let lower := if x =? 224 then 160 else 128 in
        let upper := if x =? 237 then 159 else 191 in
        match r with
        | c1 :: r1 =>
            if in_range lower upper c1 then
              match r1 with
              | c2 :: r2 =>
                  if in_range 128 191 c2
                  then push (push (Z.land x 15) c1) c2 :: code_points r2
                  else REPLACEMENT :: code_points r1
              | [] => [REPLACEMENT]
              end
            else REPLACEMENT :: code_points r
        | [] => [REPLACEMENT]
        end
      else if (240 <=? x) && (x <=? 244) then
        let lower := if x =? 240 then 144 else 128 in
        let upper := if x =? 244 then 143 else 191 in
        match r with
        | c1 :: r1 =>
            if in_range lower upper c1 then
              match r1 with
              | c2 :: r2 =>
                  if in_range 128 191 c2 then
                    match r2 with
                    | c3 :: r3 =>
                        if in_range 128 191 c3
                        then push (push (push (Z.land x 7) c1) c2) c3
                               :: code_points r3
                        else REPLACEMENT :: code_points r2
                    | [] => [REPLACEMENT]
                    end
                  else REPLACEMENT :: code_points r1
              | [] => [REPLACEMENT]
              end
            else REPLACEMENT :: code_points r
        | [] => [REPLACEMENT]
        end
      else REPLACEMENT :: code_points r
  end.

(** The UTF-16 code units of a code point. *)
Definition code_units (cp : Z) : jsstring :=
  if cp <? 65536 then [cp]
  else [55296 + Z.shiftr (cp - 65536) 10; 56320 + Z.land (cp - 65536) 1023].

(** A leading byte order mark EF BB BF is skipped. *)
Definition strip_bom (bs : list byte) : list byte :=
  match bs with
  | b0 :: b1 :: b2 :: r =>
      if (byte_val b0 =? 239) && (byte_val b1 =? 187) && (byte_val b2 =? 191)
      then r else bs
  | _ => bs
  end.

Definition TextDecoder_decode (bs : list byte) : jsstring :=
  flat_map code_units (code_points (strip_bom bs)).

End Utf8.

(** ** [encryption.ts]: [decryptToString] *)

Definition decryptToString (crossEnvCrypto : CompatibleCrypto)
    (sessionKey : bigint) (iv ciphertext : list byte) : result jsstring :=
  match decrypt crossEnvCrypto sessionKey iv ciphertext with
  | inr decrypted => inr (Utf8.TextDecoder_decode decrypted)
  | inl e => inl e
  end.

(** ** Further specification-level notions *)

(** A byte string without superfluous leading zero: the single byte 0, or a
    string starting with a non-zero byte. *)
Definition canonical_bytes (bs : list byte) : Prop :=
  match bs with
  | [] => False
  | [b] => True
  | b :: _ => byte_val b <> 0
  end.

(** A string all of whose code units are ASCII. *)
Definition ascii_string (s : jsstring) : Prop :=
  Forall (fun c => 0 <= c < 128) s.

(** A string of Unicode scalar values: code units in range, every high
    surrogate followed by a low one, no low surrogate elsewhere. *)
Fixpoint well_formed (s : jsstring) : Prop :=
  match s with
  | [] => True
  | c :: rest =>
      0 <= c < 65536 /\
      if Js.is_high_surrogate c then
        match rest with
        | d :: rest' => Js.is_low_surrogate d = true /\ well_formed rest'
        | [] => False
        end
      else Js.is_low_surrogate c = false /\ well_formed rest
  end.

(** A Unicode scalar value: a code point that is not a surrogate. *)
Definition is_scalar (cp : Z) : Prop :=
  0 <= cp < 1114112 /\ ~ (55296 <= cp <= 57343).


(** Linear arithmetic with division and remainder by constants. *)
Ltac dm_lia := Z.div_mod_to_equations; lia.

(** * Properties *)

(** ** Bytes *)

Lemma byte_val_range (b : byte) : 0 <= byte_val b < 256.
Proof.
  unfold byte_val. pose proof (Byte.to_N_bounded b). lia.
Qed.

Lemma u8_byte_val (b : byte) : u8 (byte_val b) = b.
Proof.
  unfold u8. rewrite Z.mod_small by apply byte_val_range.
  unfold byte_val. rewrite N2Z.id, Byte.of_to_N. reflexivity.
Qed.

Lemma byte_val_u8 (z : Z) : byte_val (u8 z) = z mod 256.
Proof.
  unfold u8, byte_val.
  pose proof (Z.mod_pos_bound z 256 ltac:(lia)) as Hr.
  destruct (Byte.of_N (Z.to_N (z mod 256))) as [b|] eqn:Hb.
  - apply Byte.to_of_N in Hb. rewrite Hb. lia.
  - apply Byte.of_N_None_iff in Hb. lia.
Qed.

Lemma byte_val_inj (a b : byte) : byte_val a = byte_val b -> a = b.
Proof.
  intros Heq. rewrite <- (u8_byte_val a), <- (u8_byte_val b), Heq. reflexivity.
Qed.

Lemma lxor_byte_range (a b : Z) :
  0 <= a < 256 -> 0 <= b < 256 -> 0 <= Z.lxor a b < 256.
Proof.
  intros Ha Hb.
  assert (Hnn : 0 <= Z.lxor a b) by (apply Z.lxor_nonneg; lia).
  split; [assumption|].
  destruct (Z.eq_dec (Z.lxor a b) 0) as [->|Hnz]; [lia|].
  assert (Hlog : forall x, 0 <= x < 256 -> Z.log2 x < 8).
  { intros x Hx. destruct (Z.eq_dec x 0) as [->|]; [reflexivity|].
    apply Z.log2_lt_pow2; lia. }
  pose proof (Z.log2_lxor a b ltac:(lia) ltac:(lia)).
  pose proof (Hlog a Ha). pose proof (Hlog b Hb).
  change 256 with (2 ^ 8). apply Z.log2_lt_pow2; lia.
Qed.

Lemma strict_eq_true (x y : option byte) :
  Js.strict_eq x y = true <-> x = y.
Proof.
  destruct x as [a|], y as [b|]; simpl; split; try congruence.
  - intros Hab. f_equal. apply Byte.byte_dec_bl. assumption.
  - intros [= ->]. apply Byte.byte_dec_lb. reflexivity.
Qed.

(** ** Loops that fill a typed array *)

Lemma for_loop_S {St : Type} (n : nat) (body : nat -> St -> St) (init : St) :
  Js.for_loop (S n) body init = body n (Js.for_loop n body init).
Proof.
  unfold Js.for_loop. rewrite seq_S, fold_left_app. reflexivity.
Qed.

Lemma for_loop_ext {St : Type} (n : nat) (f g : nat -> St -> St) (init : St) :
  (forall i st, (i < n)%nat -> f i st = g i st) ->
  Js.for_loop n f init = Js.for_loop n g init.
Proof.
  induction n as [|n IH]; intros Hfg; [reflexivity|].
  rewrite !for_loop_S, IH by (intros; apply Hfg; lia).
  apply Hfg. lia.
Qed.

Lemma store_length (a : list byte) (i : nat) (v : option Z) :
  length (Js.store a i v) = length a.
Proof. unfold Js.store. apply length_insert. Qed.

Lemma for_loop_store_length (n off : nat) (f : nat -> option Z) (a : list byte) :
  length (Js.for_loop n (fun i arr => Js.store arr (i + off) (f i)) a)
  = length a.
Proof.
  induction n as [|n IH]; [reflexivity|].
  rewrite for_loop_S, store_length. exact IH.
Qed.

(** A loop writing [f i] at index [i + off] for [i < n]: what each element
    holds afterwards. *)
Lemma for_loop_store_lookup (n off : nat) (f : nat -> option Z)
    (a : list byte) (k : nat) :
  Js.for_loop n (fun i arr => Js.store arr (i + off) (f i)) a !! k =
    if decide (off <= k < n + off /\ k < length a)%nat
    then Some (u8 (default 0 (f (k - off)%nat)))
    else a !! k.
Proof.
  induction n as [|n IH].
  - simpl. destruct (decide _) as [H|H]; [lia | reflexivity].
  - rewrite for_loop_S. unfold Js.store at 1.
    destruct (decide (n + off = k)%nat) as [<-|Hne].
    + destruct (decide (n + off < length a)%nat) as [Hin|Hout].
      * rewrite list_lookup_insert_eq
          by (rewrite for_loop_store_length; assumption).
        rewrite decide_True by lia.
        replace (n + off - off)%nat with n by lia. reflexivity.
      * rewrite list_insert_ge by (rewrite for_loop_store_length; lia).
        rewrite IH. rewrite !decide_False by lia. reflexivity.
    + rewrite list_lookup_insert_ne by assumption.
      rewrite IH.
      destruct (decide (off <= k < n + off /\ k < length a)%nat).
      * rewrite decide_True by lia. reflexivity.
      * rewrite decide_False by lia. reflexivity.
Qed.

(** Filling a whole fresh array. *)
Lemma for_loop_fill (n : nat) (f : nat -> option Z) :
  Js.for_loop n (fun i arr => Js.store arr i (f i)) (Js.zeros n)
  = map (fun i => u8 (default 0 (f i))) (seq 0 n).
Proof.
  apply list_eq. intros k.
  rewrite (for_loop_ext n _ (fun i arr => Js.store arr (i + 0) (f i)))
    by (intros; rewrite Nat.add_0_r; reflexivity).
  rewrite for_loop_store_lookup.
  unfold Js.zeros. rewrite length_replicate.
  destruct (decide (0 <= k < n + 0 /\ k < n)%nat) as [Hk|Hk].
  - rewrite list_lookup_fmap, lookup_seq_lt by lia. simpl.
    rewrite Nat.sub_0_r. reflexivity.
  - rewrite !lookup_ge_None_2; [reflexivity | |].
    + rewrite length_map, length_seq. lia.
    + rewrite length_replicate. lia.
Qed.

(** A loop indexing an array is a fold over its elements. *)
Lemma for_loop_elements {A St : Type} (d : A) (g : A -> St -> St)
    (l : list A) (init : St) :
  Js.for_loop (length l) (fun i st => g (default d (l !! i)) st) init
  = fold_left (fun st a => g a st) l init.
Proof.
  induction l as [|x l IH] using rev_ind; [reflexivity|].
  rewrite length_app. simpl length. rewrite Nat.add_1_r, for_loop_S.
  rewrite fold_left_app. simpl.
  rewrite lookup_app_r, Nat.sub_diag by lia. simpl. f_equal.
  rewrite <- IH. apply for_loop_ext.
  intros i st Hi. rewrite lookup_app_l by assumption. reflexivity.
Qed.

Lemma nonempty_of_length {A : Type} (l : list A) :
  (0 < length l)%nat -> l <> [].
Proof. destruct l; simpl; [lia | discriminate]. Qed.

(** ** [modPow]: termination and result *)

Section ModPowFacts.
Import ModPow.

Lemma loop_body_odd (m : bigint) (st : loop_state) :
  0 < ls_pow st -> Z.odd (ls_pow st) = true ->
  loop_body m st =
    {| ls_x := ls_x st; ls_pow := ls_pow st - 1;
       ls_result := Z.rem (ls_x st * ls_result st) m |}.
Proof.
  intros Hpos Hodd. unfold loop_body, TWO, ONE.
  rewrite Z.rem_mod_nonneg by lia.
  rewrite Zmod_odd, Hodd. reflexivity.
Qed.

Lemma loop_body_even (m : bigint) (st : loop_state) :
  0 < ls_pow st -> Z.odd (ls_pow st) = false ->
  loop_body m st =
    {| ls_x := Z.rem (ls_x st * ls_x st) m; ls_pow := ls_pow st / 2;
       ls_result := ls_result st |}.
Proof.
  intros Hpos Hodd. unfold loop_body, TWO, ONE.
  rewrite Z.rem_mod_nonneg by lia.
  rewrite Zmod_odd, Hodd. simpl.
  rewrite Z.quot_div_nonneg by lia. reflexivity.
Qed.

(** Every iteration strictly decreases the exponent and keeps it
    non-negative. *)
Lemma loop_body_pow (m : bigint) (st : loop_state) :
  0 < ls_pow st ->
  0 <= ls_pow (loop_body m st) < ls_pow st /\
  ls_pow (loop_body m st) =
    (if Z.odd (ls_pow st) then ls_pow st - 1 else ls_pow st / 2).
Proof.
  intros Hpos. destruct (Z.odd (ls_pow st)) eqn:Hodd.
  - rewrite loop_body_odd by assumption. simpl. lia.
  - rewrite loop_body_even by assumption. simpl.
    split; [|reflexivity].
    split; [apply Z.div_pos; lia | apply Z.div_lt; lia].
Qed.

Lemma iterations_bound_step (pow : Z) :
  0 < pow ->
  iterations_bound (if Z.odd pow then pow - 1 else pow / 2)
    < iterations_bound pow.
Proof.
  intros Hpos. unfold iterations_bound.
  destruct (Z.leb_spec pow 0) as [|_]; [lia|].
  pose proof (Z.log2_nonneg pow) as Hlog.
  destruct (Z.odd pow) eqn:Hodd.
  - destruct (Z.leb_spec (pow - 1) 0) as [|Hgt]; [simpl; lia|].
    assert (Hev : Z.odd (pow - 1) = false).
    { rewrite Z.odd_sub, Hodd. reflexivity. }
    rewrite Hev. simpl Z.b2z.
    pose proof (Z.log2_le_mono (pow - 1) pow). lia.
  - assert (Hdiv : pow = 2 * (pow / 2)).
    { pose proof (Zmod_odd pow) as Hm. rewrite Hodd in Hm.
      pose proof (Z.div_mod pow 2). lia. }
    assert (Hq : 0 < pow / 2) by lia.
    destruct (Z.leb_spec (pow / 2) 0) as [|_]; [lia|].
    assert (Hl : Z.log2 pow = Z.succ (Z.log2 (pow / 2))).
    { rewrite Hdiv at 1. apply Z.log2_double. assumption. }
    destruct (Z.odd (pow / 2)); simpl Z.b2z; lia.
Qed.

Lemma iterations_bound_nonneg (pow : Z) : 0 <= iterations_bound pow.
Proof.
  unfold iterations_bound. destruct (Z.leb_spec pow 0); [lia|].
  pose proof (Z.log2_nonneg pow). destruct (Z.odd pow); simpl; lia.
Qed.

Lemma iterations_bound_le (pow : Z) :
  0 <= pow -> iterations_bound pow <= 2 * Z.log2 pow + 2.
Proof.
  intros Hpow. unfold iterations_bound. pose proof (Z.log2_nonneg pow).
  destruct (Z.leb_spec pow 0); [lia|]. destruct (Z.odd pow); simpl; lia.
Qed.

(** With at least [iterations_bound pow] iterations allowed, the loop
    leaves through its guard. *)
Lemma while_loop_terminates (m : bigint) (fuel : nat) :
  forall st : loop_state,
    0 <= ls_pow st ->
    iterations_bound (ls_pow st) <= Z.of_nat fuel ->
    exists st', while_loop fuel m st = Some st' /\ ls_pow st' = 0.
Proof.
  induction fuel as [|fuel IH]; intros st Hnn Hfuel.
  - assert (Hz : ls_pow st = 0).
    { unfold iterations_bound in Hfuel.
      destruct (Z.leb_spec (ls_pow st) 0); [lia|].
      pose proof (Z.log2_nonneg (ls_pow st)).
      destruct (Z.odd (ls_pow st)); simpl in Hfuel; lia. }
    exists st. simpl. unfold ZERO. rewrite Hz. split; reflexivity.
  - simpl. unfold ZERO.
    destruct (Z.gtb_spec (ls_pow st) 0) as [Hpos|Hle].
    + destruct (loop_body_pow m st Hpos) as [Hrange Heq].
      apply IH; [lia|].
      rewrite Heq. apply Z.lt_succ_r.
      eapply Z.lt_le_trans; [apply iterations_bound_step; assumption | lia].
    + exists st. split; [reflexivity | lia].
Qed.

Lemma loop_body_inv (m base exp : Z) (st : loop_state) :
  1 <= m -> 0 < ls_pow st ->
  loop_inv m base exp st -> loop_inv m base exp (loop_body m st).
Proof.
  intros Hm Hpos (Hx & Hp & Hr & Hlt & Hval).
  destruct (Z.odd (ls_pow st)) eqn:Hodd.
  - rewrite loop_body_odd by assumption. unfold loop_inv; simpl.
    rewrite Z.rem_mod_nonneg by lia.
    pose proof (Z.mod_pos_bound (ls_x st * ls_result st) m ltac:(lia)).
    repeat split; try lia.
    rewrite <- Hval.
    replace (ls_pow st) with (Z.succ (ls_pow st - 1)) at 2 by lia.
    rewrite Z.pow_succ_r by lia.
    rewrite Z.mul_mod_idemp_l by lia.
    f_equal. ring.
  - rewrite loop_body_even by assumption. unfold loop_inv; simpl.
    rewrite Z.rem_mod_nonneg by lia.
    pose proof (Z.mod_pos_bound (ls_x st * ls_x st) m ltac:(lia)).
    assert (Hdiv : ls_pow st = 2 * (ls_pow st / 2)).
    { pose proof (Zmod_odd (ls_pow st)) as Hmo. rewrite Hodd in Hmo.
      pose proof (Z.div_mod (ls_pow st) 2). lia. }
    repeat split; try lia.
    rewrite <- Hval. rewrite Hdiv at 2.
    rewrite Z.pow_mul_r by lia.
    rewrite Z.pow_2_r.
    rewrite <- (Z.mul_mod_idemp_r _ ((ls_x st * ls_x st) ^ _)) by lia.
    rewrite <- Z.mod_pow_l.
    rewrite Z.mul_mod_idemp_r by lia. reflexivity.
Qed.

Lemma while_loop_inv (m base exp : Z) (fuel : nat) :
  1 <= m ->
  forall st st', loop_inv m base exp st ->
    while_loop fuel m st = Some st' ->
    loop_inv m base exp st' /\ ls_pow st' = 0.
Proof.
  intros Hm. induction fuel as [|fuel IH]; intros st st' Hinv; simpl;
    unfold ZERO; destruct (Z.gtb_spec (ls_pow st) 0) as [Hpos|Hle];
    intros Hrun; try discriminate.
  - injection Hrun as <-. split; [assumption|].
    destruct Hinv as (_ & ? & _). lia.
  - eapply IH; [|eassumption]. apply loop_body_inv; assumption.
  - injection Hrun as <-. split; [assumption|].
    destruct Hinv as (_ & ? & _). lia.
Qed.

(** The value returned on the non-degenerate part of the domain. *)
Lemma modPow_value (fuel : nat) (base exp m r : Z) :
  0 <= base -> 0 <= exp -> 1 <= m -> (2 <= m \/ 1 <= exp) ->
  modPow fuel base exp m = Some (inr r) -> r = base ^ exp mod m.
Proof.
  intros Hb He Hm Hnd. unfold modPow, ZERO, ONE.
  destruct (Z.ltb_spec base 0); [lia|].
  destruct (Z.ltb_spec exp 0); [lia|].
  destruct (Z.ltb_spec m 1); [lia|].
  destruct (while_loop fuel m _) as [st'|] eqn:Hrun; [|discriminate].
  intros [= <-].
  apply (while_loop_inv m base exp) in Hrun; [|lia|].
  - destruct Hrun as ((_ & _ & Hr & Hlt & Hval) & Hz).
    rewrite Hz, Z.pow_0_r, Z.mul_1_r in Hval.
    rewrite <- Hval. symmetry. apply Z.mod_small. lia.
  - unfold loop_inv; simpl. rewrite Z.mul_1_l. repeat split; lia.
Qed.

(** Arguments outside the domain are rejected, whatever the fuel. *)
Lemma modPow_rejects (fuel : nat) (base exp m : Z) :
  (exists e, modPow fuel base exp m = Some (inl e)) <->
  (base < 0 \/ exp < 0 \/ m < 1).
Proof.
  unfold modPow, ZERO, ONE.
  destruct (Z.ltb_spec base 0); [split; [lia | eauto]|].
  destruct (Z.ltb_spec exp 0); [split; [lia | eauto]|].
  destruct (Z.ltb_spec m 1); [split; [lia | eauto]|].
  split; [|lia].
  intros [e He]. destruct (while_loop fuel m _); discriminate.
Qed.

End ModPowFacts.

(** ** Hexadecimal digits *)

Lemma digits_value_acc (ds : list Z) (acc : Z) :
  fold_left (fun a d => a * 16 + d) ds acc
  = acc * 16 ^ Z.of_nat (length ds) + Js.digits_value ds.
Proof.
  unfold Js.digits_value. revert acc.
  induction ds as [|d ds IH]; intros acc.
  - simpl. lia.
  - cbn [fold_left length]. rewrite IH, (IH (0 * 16 + d)).
    rewrite Nat2Z.inj_succ, Z.pow_succ_r by lia. ring.
Qed.

Lemma digits_value_cons (d : Z) (ds : list Z) :
  Js.digits_value (d :: ds)
  = d * 16 ^ Z.of_nat (length ds) + Js.digits_value ds.
Proof.
  unfold Js.digits_value at 1. cbn [fold_left].
  rewrite digits_value_acc. lia.
Qed.

Lemma digits_value_snoc (ds : list Z) (d : Z) :
  Js.digits_value (ds ++ [d]) = Js.digits_value ds * 16 + d.
Proof.
  unfold Js.digits_value. rewrite fold_left_app. reflexivity.
Qed.

Lemma digits_value_bounds (ds : list Z) :
  Forall is_hex_digit ds ->
  0 <= Js.digits_value ds < 16 ^ Z.of_nat (length ds).
Proof.
  induction 1 as [|d ds Hd _ IH].
  - unfold Js.digits_value. simpl. lia.
  - rewrite digits_value_cons. cbn [length].
    rewrite Nat2Z.inj_succ, Z.pow_succ_r by lia.
    unfold is_hex_digit in Hd. nia.
Qed.

Lemma hex_digits_aux_acc (fuel : nat) :
  forall (n : Z) (acc : list Z),
    Js.hex_digits_aux fuel n acc = Js.hex_digits_aux fuel n [] ++ acc.
Proof.
  induction fuel as [|fuel IH]; intros n acc; simpl; [reflexivity|].
  destruct (n <? 16); [reflexivity|].
  rewrite IH, (IH _ [n mod 16]), <- app_assoc. reflexivity.
Qed.

(** The digits produced with enough fuel: all in range, denoting [n], with
    a non-zero leading digit unless [n] is 0. *)
Lemma hex_digits_aux_spec (fuel : nat) :
  forall n : Z,
    0 <= n < 16 ^ Z.of_nat (S fuel) ->
    Forall is_hex_digit (Js.hex_digits_aux (S fuel) n []) /\
    Js.digits_value (Js.hex_digits_aux (S fuel) n []) = n /\
    exists d rest,
      Js.hex_digits_aux (S fuel) n [] = d :: rest /\ (0 < n -> 0 < d).
Proof.
  induction fuel as [|fuel IH]; intros n Hn.
  - change (16 ^ Z.of_nat 1) with 16 in Hn. simpl.
    destruct (Z.ltb_spec n 16); [|lia].
    split; [|split].
    + constructor; [unfold is_hex_digit; lia | constructor].
    + unfold Js.digits_value. simpl. lia.
    + exists n, []. split; [reflexivity | lia].
  - cbn [Js.hex_digits_aux].
    destruct (Z.ltb_spec n 16) as [Hlt|Hge].
    + split; [|split].
      * constructor; [unfold is_hex_digit; lia | constructor].
      * unfold Js.digits_value. simpl. lia.
      * exists n, []. split; [reflexivity | lia].
    + change (if n / 16 <? 16 then n / 16 :: [n mod 16]
              else Js.hex_digits_aux fuel (n / 16 / 16)
                     ((n / 16) mod 16 :: [n mod 16]))
        with (Js.hex_digits_aux (S fuel) (n / 16) [n mod 16]).
      rewrite hex_digits_aux_acc.
      assert (Hq : 0 <= n / 16 < 16 ^ Z.of_nat (S fuel)).
      { rewrite (Nat2Z.inj_succ (S fuel)), Z.pow_succ_r in Hn by lia.
        split; [apply Z.div_pos; lia|].
        apply Z.div_lt_upper_bound; lia. }
      destruct (IH _ Hq) as (Hall & Hval & d & rest & Heq & Hd).
      pose proof (Z.mod_pos_bound n 16 ltac:(lia)) as Hm.
      split; [|split].
      * apply Forall_app. split; [assumption|].
        constructor; [exact Hm | constructor].
      * rewrite digits_value_snoc, Hval.
        pose proof (Z.div_mod n 16 ltac:(lia)). lia.
      * exists d, (rest ++ [n mod 16]). rewrite Heq. split; [reflexivity|].
        intros _. apply Hd.
        apply Z.div_str_pos. lia.
Qed.

Lemma hex_digits_fuel (n : Z) :
  0 <= n -> 0 <= n < 16 ^ Z.of_nat (S (Z.to_nat (Z.log2 n))).
Proof.
  intros Hn. split; [assumption|].
  pose proof (Z.log2_nonneg n) as Hl.
  rewrite Nat2Z.inj_succ, Z2Nat.id by assumption.
  destruct (Z.eq_dec n 0) as [->|Hnz].
  - simpl. lia.
  - pose proof (Z.log2_spec n ltac:(lia)) as [_ Hup].
    eapply Z.lt_le_trans; [exact Hup|].
    apply Z.pow_le_mono_l. lia.
Qed.

Lemma hex_digits_spec (n : Z) :
  0 <= n ->
  Forall is_hex_digit (Js.hex_digits n) /\
  Js.digits_value (Js.hex_digits n) = n /\
  exists d rest, Js.hex_digits n = d :: rest /\ (0 < n -> 0 < d).
Proof.
  intros Hn. unfold Js.hex_digits.
  apply hex_digits_aux_spec, hex_digits_fuel. assumption.
Qed.

(** Digit characters *)

Lemma hex_digit_val_char (d : Z) :
  is_hex_digit d -> Js.hex_digit_val (Js.hex_digit_char d) = Some d.
Proof.
  unfold is_hex_digit, Js.hex_digit_val, Js.hex_digit_char. intros Hd.
  destruct (Z.ltb_spec d 10).
  - replace ((48 <=? 48 + d) && (48 + d <=? 57)) with true
      by (symmetry; apply andb_true_iff; split; apply Z.leb_le; lia).
    f_equal. lia.
  - replace ((48 <=? 87 + d) && (87 + d <=? 57)) with false
      by (symmetry; apply andb_false_iff; right; apply Z.leb_gt; lia).
    replace ((97 <=? 87 + d) && (87 + d <=? 102)) with true
      by (symmetry; apply andb_true_iff; split; apply Z.leb_le; lia).
    f_equal. lia.
Qed.

Lemma hex_digit_char_range (d : Z) :
  is_hex_digit d ->
  48 <= Js.hex_digit_char d <= 57 \/ 97 <= Js.hex_digit_char d <= 102.
Proof.
  unfold is_hex_digit, Js.hex_digit_char. intros Hd.
  destruct (Z.ltb_spec d 10); lia.
Qed.

Lemma hex_digit_char_not_space (d : Z) :
  is_hex_digit d -> Js.is_whitespace (Js.hex_digit_char d) = false.
Proof.
  intros Hd. pose proof (hex_digit_char_range d Hd) as Hr.
  unfold Js.is_whitespace.
  repeat (apply orb_false_iff; split);
    try (apply Z.eqb_neq; lia).
  apply andb_false_iff. left. apply Z.leb_gt. lia.
Qed.

Lemma hex_prefix_chars (ds : list Z) :
  Forall is_hex_digit ds -> Js.hex_prefix (map Js.hex_digit_char ds) = ds.
Proof.
  induction 1 as [|d ds Hd _ IH]; [reflexivity|].
  cbn [map Js.hex_prefix]. rewrite hex_digit_val_char by assumption.
  rewrite IH. reflexivity.
Qed.

(** [parseInt] reads back a non-empty string of digit characters. *)
Lemma parseInt16_chars (ds : list Z) :
  ds <> [] -> Forall is_hex_digit ds ->
  Js.parseInt16 (map Js.hex_digit_char ds) = Some (Js.digits_value ds).
Proof.
  intros Hne Hall. destruct ds as [|d ds]; [congruence|].
  pose proof (Forall_inv Hall) as Hd.
  pose proof (hex_digit_char_range d Hd) as Hr.
  unfold Js.parseInt16. cbn [map Js.trim_start].
  rewrite hex_digit_char_not_space by assumption.
  destruct (Z.eqb_spec (Js.hex_digit_char d) 45); [lia|].
  destruct (Z.eqb_spec (Js.hex_digit_char d) 43); [lia|].
  assert (Hstrip : Js.strip_0x (Js.hex_digit_char d :: map Js.hex_digit_char ds)
                   = Js.hex_digit_char d :: map Js.hex_digit_char ds).
  { unfold Js.strip_0x. destruct ds as [|d' ds]; [reflexivity|].
    cbn [map].
    pose proof (hex_digit_char_range d' (Forall_inv (Forall_inv_tail Hall))).
    destruct (Z.eqb_spec (Js.hex_digit_char d') 120); [lia|].
    destruct (Z.eqb_spec (Js.hex_digit_char d') 88); [lia|].
    rewrite andb_false_r. reflexivity. }
  rewrite Hstrip.
  change (Js.hex_digit_char d :: map Js.hex_digit_char ds)
    with (map Js.hex_digit_char (d :: ds)).
  rewrite hex_prefix_chars by assumption.
  f_equal. lia.
Qed.

(** ** Digits in pairs *)

Lemma pairs_ind {A : Type} (P : list A -> Prop) :
  P [] -> (forall x, P [x]) -> (forall x y l, P l -> P (x :: y :: l)) ->
  forall l, P l.
Proof.
  intros Hnil Hone Hstep.
  assert (Hboth : forall l, P l /\ forall x, P (x :: l)).
  { induction l as [|y l [IH1 IH2]]; split; auto. }
  intros l. apply Hboth.
Qed.

Lemma pair_bytes_length (ds : list Z) :
  length (pair_bytes ds) = (length ds / 2)%nat.
Proof.
  induction ds as [| x | x y l IH] using pairs_ind; try reflexivity.
  cbn [pair_bytes length]. rewrite IH.
  change (S (S (length l))) with (1 * 2 + length l)%nat.
  rewrite Nat.div_add_l by lia. reflexivity.
Qed.

Lemma pair_bytes_lookup (k : nat) :
  forall (ds : list Z) (x y : Z),
    ds !! (2 * k)%nat = Some x -> ds !! (2 * k + 1)%nat = Some y ->
    pair_bytes ds !! k = Some (u8 (16 * x + y)).
Proof.
  induction k as [|k IH]; intros ds x y Hx Hy.
  - destruct ds as [|a [|b ds]]; try discriminate.
    simpl in Hx, Hy. injection Hx as ->. injection Hy as ->. reflexivity.
  - destruct ds as [|a [|b ds]].
    + discriminate.
    + replace (2 * S k)%nat with (S (S (2 * k))) in Hx by lia. discriminate.
    + replace (2 * S k)%nat with (S (S (2 * k))) in Hx by lia.
      replace (2 * S k + 1)%nat with (S (S (2 * k + 1))) in Hy by lia.
      cbn [pair_bytes]. rewrite lookup_cons_ne_0 by lia. simpl.
      apply IH; assumption.
Qed.

Lemma be_value_acc (bs : list byte) (acc : Z) :
  fold_left (fun a b => a * 256 + byte_val b) bs acc
  = acc * 256 ^ Z.of_nat (length bs) + be_value bs.
Proof.
  unfold be_value. revert acc.
  induction bs as [|b bs IH]; intros acc.
  - simpl. lia.
  - cbn [fold_left length]. rewrite IH, (IH (0 * 256 + byte_val b)).
    rewrite Nat2Z.inj_succ, Z.pow_succ_r by lia. ring.
Qed.

Lemma be_value_bounds (bs : list byte) :
  0 <= be_value bs < 256 ^ Z.of_nat (length bs).
Proof.
  induction bs as [|b bs IH].
  - unfold be_value. simpl. lia.
  - unfold be_value. cbn [fold_left length]. rewrite be_value_acc.
    rewrite Nat2Z.inj_succ, Z.pow_succ_r by lia.
    pose proof (byte_val_range b). nia.
Qed.

Lemma pair_bytes_fold (ds : list Z) :
  Forall is_hex_digit ds ->
  forall acc,
    fold_left (fun a b => a * 256 + byte_val b) (pair_bytes ds) acc
    = fold_left (fun a d => a * 16 + d)
        (if (length ds mod 2 =? 0)%nat then ds else removelast ds) acc.
Proof.
  induction ds as [| x | x y l IH] using pairs_ind; intros Hall acc;
    try reflexivity.
  pose proof (Forall_inv Hall) as Hx.
  pose proof (Forall_inv (Forall_inv_tail Hall)) as Hy.
  pose proof (Forall_inv_tail (Forall_inv_tail Hall)) as Hl.
  cbn [pair_bytes fold_left length].
  rewrite IH by assumption.
  replace (S (S (length l))) with (length l + 1 * 2)%nat by lia.
  rewrite Nat.Div0.mod_add.
  rewrite byte_val_u8, Z.mod_small by (unfold is_hex_digit in *; lia).
  destruct (length l mod 2 =? 0)%nat eqn:Hpar.
  - cbn [fold_left]. f_equal. ring.
  - destruct l as [|z l]; [discriminate|].
    cbn [removelast fold_left]. f_equal. ring.
Qed.

Lemma be_value_pair_bytes (ds : list Z) :
  Forall is_hex_digit ds -> (length ds mod 2 = 0)%nat ->
  be_value (pair_bytes ds) = Js.digits_value ds.
Proof.
  intros Hall Heven. unfold be_value. rewrite pair_bytes_fold by assumption.
  rewrite Heven. reflexivity.
Qed.

Lemma pad_even_spec (ds : list Z) :
  Forall is_hex_digit ds ->
  Forall is_hex_digit (pad_even ds) /\
  (length (pad_even ds) mod 2 = 0)%nat /\
  (length (pad_even ds) / 2 = (length ds + 1) / 2)%nat /\
  Js.digits_value (pad_even ds) = Js.digits_value ds.
Proof.
  intros Hall. unfold pad_even.
  destruct (Nat.eqb_spec (length ds mod 2) 0) as [Hev|Hodd].
  - split; [|split; [|split]]; try assumption; try reflexivity.
    pose proof (Nat.div_mod_eq (length ds) 2).
    pose proof (Nat.div_mod_eq (length ds + 1) 2).
    pose proof (Nat.mod_upper_bound (length ds + 1) 2). lia.
  - pose proof (Nat.mod_upper_bound (length ds) 2 ltac:(lia)) as Hub.
    split; [|split; [|split]].
    + constructor; [unfold is_hex_digit; lia | assumption].
    + cbn [length].
      pose proof (Nat.div_mod_eq (length ds) 2).
      pose proof (Nat.div_mod_eq (S (length ds)) 2).
      pose proof (Nat.mod_upper_bound (S (length ds)) 2). lia.
    + cbn [length]. rewrite Nat.add_1_r. reflexivity.
    + rewrite digits_value_cons. lia.
Qed.

(** ** [bigIntToArrayBuffer] *)

Lemma slice_map {A B : Type} (f : A -> B) (l : list A) (a b : nat) :
  Js.slice (map f l) a b = map f (Js.slice l a b).
Proof.
  unfold Js.slice. rewrite skipn_map, firstn_map. reflexivity.
Qed.

Lemma slice_single {A : Type} (l : list A) (a : nat) (x : A) :
  l !! a = Some x -> Js.slice l a (S a) = [x].
Proof.
  intros Hx. unfold Js.slice.
  replace (S a - a)%nat with 1%nat by lia.
  rewrite (drop_S _ _ _ Hx). reflexivity.
Qed.

Lemma slice_pair {A : Type} (l : list A) (a : nat) (x y : A) :
  l !! a = Some x -> l !! S a = Some y -> Js.slice l a (a + 2) = [x; y].
Proof.
  intros Hx Hy. unfold Js.slice.
  replace (a + 2 - a)%nat with 2%nat by lia.
  rewrite (drop_S _ _ _ Hx), (drop_S _ _ _ Hy). reflexivity.
Qed.

Lemma parse_two_chars (ds : list Z) (a : nat) (x y : Z) :
  Forall is_hex_digit ds ->
  ds !! a = Some x -> ds !! S a = Some y ->
  Js.parseInt16 (Js.slice (map Js.hex_digit_char ds) a (a + 2))
  = Some (16 * x + y).
Proof.
  intros Hall Hx Hy.
  rewrite slice_map, (slice_pair ds a x y Hx Hy).
  rewrite parseInt16_chars.
  - f_equal. unfold Js.digits_value. simpl. lia.
  - discriminate.
  - rewrite Forall_lookup in Hall.
    constructor; [eapply Hall; eassumption|].
    constructor; [eapply Hall; eassumption | constructor].
Qed.

Lemma parse_one_char (ds : list Z) (x : Z) :
  Forall is_hex_digit ds -> ds !! 0%nat = Some x ->
  Js.parseInt16 (Js.slice (map Js.hex_digit_char ds) 0 1) = Some x.
Proof.
  intros Hall Hx.
  rewrite slice_map, (slice_single ds 0 x Hx).
  rewrite parseInt16_chars.
  - reflexivity.
  - discriminate.
  - rewrite Forall_lookup in Hall.
    constructor; [eapply Hall; eassumption | constructor].
Qed.

(** The bytes written by the two loops of [bigIntToArrayBuffer] are the
    hexadecimal digits of [n] taken in pairs. *)
Lemma bigIntToArrayBuffer_pairs (n : Z) :
  0 <= n ->
  bigIntToArrayBuffer n = pair_bytes (pad_even (Js.hex_digits n)).
Proof.
  intros Hn.
  destruct (hex_digits_spec n Hn) as (Hall & _ & d0 & rest & Hds & _).
  unfold bigIntToArrayBuffer, Js.toString16.
  destruct (Z.ltb_spec n 0) as [|_]; [lia|].
  set (ds := Js.hex_digits n) in *.
  rewrite length_map.
  assert (Hlen : (1 <= length ds)%nat) by (rewrite Hds; simpl; lia).
  pose proof (Nat.div_mod_eq (length ds) 2) as Hdm.
  pose proof (Nat.mod_upper_bound (length ds) 2 ltac:(lia)) as Hub.
  pose proof (Nat.div_mod_eq (length ds + 1) 2) as Hdm1.
  pose proof (Nat.mod_upper_bound (length ds + 1) 2 ltac:(lia)) as Hub1.
  set (BL := ((length ds + 1) / 2)%nat) in *.
  unfold pad_even.
  destruct (Nat.eqb_spec (length ds mod 2) 0) as [Hev|Hodd]; cbn [negb].
  - (* even number of digits *)
    apply list_eq. intros k. rewrite for_loop_store_lookup.
    unfold Js.zeros. rewrite length_replicate.
    destruct (decide (0 <= k < BL + 0 /\ k < BL)%nat) as [Hk|Hk].
    + destruct (lookup_lt_is_Some_2 ds (2 * k)) as [x Hx]; [lia|].
      destruct (lookup_lt_is_Some_2 ds (S (2 * k))) as [y Hy]; [lia|].
      replace (2 * (k - 0) + 2 + 0)%nat with (2 * k + 2)%nat by lia.
      replace (2 * (k - 0) + 0)%nat with (2 * k)%nat by lia.
      rewrite (parse_two_chars ds (2 * k) x y Hall Hx Hy). simpl default.
      symmetry. apply pair_bytes_lookup; [assumption|].
      rewrite Nat.add_1_r. assumption.
    + rewrite !lookup_ge_None_2; [reflexivity | |].
      * rewrite pair_bytes_length. lia.
      * rewrite length_replicate. lia.
  - (* odd number of digits: the first byte holds the first digit alone *)
    apply list_eq. intros k. rewrite for_loop_store_lookup.
    rewrite store_length. unfold Js.zeros. rewrite length_replicate.
    assert (Hd0 : ds !! 0%nat = Some d0) by (rewrite Hds; reflexivity).
    destruct (decide (1 <= k < BL + 1 /\ k < BL)%nat) as [Hk|Hk].
    + destruct (lookup_lt_is_Some_2 ds (2 * k - 1)) as [x Hx]; [lia|].
      destruct (lookup_lt_is_Some_2 ds (S (2 * k - 1))) as [y Hy]; [lia|].
      replace (2 * (k - 1) + 2 + 1)%nat with (2 * k - 1 + 2)%nat by lia.
      replace (2 * (k - 1) + 1)%nat with (2 * k - 1)%nat by lia.
      rewrite (parse_two_chars ds (2 * k - 1) x y Hall Hx Hy). simpl default.
      symmetry. apply pair_bytes_lookup.
      * replace (2 * k)%nat with (S (2 * k - 1)) by lia. exact Hx.
      * replace (2 * k + 1)%nat with (S (S (2 * k - 1))) by lia. exact Hy.
    + destruct (decide (k = 0%nat)) as [->|Hk0].
      * unfold Js.store.
        rewrite list_lookup_insert_eq by (rewrite length_replicate; lia).
        rewrite (parse_one_char ds d0 Hall Hd0). simpl default.
        rewrite (pair_bytes_lookup 0 (0 :: ds) 0 d0 eq_refl Hd0).
        reflexivity.
      * rewrite !lookup_ge_None_2; [reflexivity | |].
        -- rewrite pair_bytes_length. cbn [length]. 
           replace (S (length ds)) with (length ds + 1)%nat by lia. fold BL. lia.
        -- rewrite store_length, length_replicate. lia.
Qed.

(** The encoding denotes [n], is never empty, and its first byte is zero
    only for [n = 0]. *)
Lemma bigIntToArrayBuffer_value (n : Z) :
  0 <= n -> be_value (bigIntToArrayBuffer n) = n.
Proof.
  intros Hn. rewrite bigIntToArrayBuffer_pairs by assumption.
  destruct (hex_digits_spec n Hn) as (Hall & Hval & _).
  destruct (pad_even_spec _ Hall) as (Hpall & Hpev & _ & Hpval).
  rewrite be_value_pair_bytes by assumption. congruence.
Qed.

Lemma bigIntToArrayBuffer_length (n : Z) :
  0 <= n ->
  length (bigIntToArrayBuffer n) = ((length (Js.hex_digits n) + 1) / 2)%nat.
Proof.
  intros Hn. rewrite bigIntToArrayBuffer_pairs by assumption.
  destruct (hex_digits_spec n Hn) as (Hall & _).
  destruct (pad_even_spec _ Hall) as (_ & _ & Hlen & _).
  rewrite pair_bytes_length. exact Hlen.
Qed.

Lemma bigIntToArrayBuffer_nonempty (n : Z) :
  0 <= n -> bigIntToArrayBuffer n <> [].
Proof.
  intros Hn. apply nonempty_of_length.
  rewrite bigIntToArrayBuffer_length by assumption.
  destruct (hex_digits_spec n Hn) as (_ & _ & d & rest & Hds & _).
  rewrite Hds. cbn [length].
  pose proof (Nat.div_mod_eq (S (length rest) + 1) 2).
  pose proof (Nat.mod_upper_bound (S (length rest) + 1) 2). lia.
Qed.

(** No shorter non-empty byte string denotes the same number. *)
Lemma bigIntToArrayBuffer_minimal (n : Z) (bs : list byte) :
  0 <= n -> bs <> [] -> be_value bs = n ->
  (length (bigIntToArrayBuffer n) <= length bs)%nat.
Proof.
  intros Hn Hne Hval.
  rewrite bigIntToArrayBuffer_length by assumption.
  assert (Hbl : (1 <= length bs)%nat) by (destruct bs; simpl; [congruence|lia]).
  destruct (Z.eq_dec n 0) as [Hz|Hnz].
  - (* 0 is written with the single digit 0 *)
    rewrite Hz. change (Js.hex_digits 0) with [0]. simpl. lia.
  - destruct (hex_digits_spec n Hn) as (Hall & Hdv & d & rest & Hds & Hd).
    rewrite Hds in *. cbn [length].
    specialize (Hd ltac:(lia)).
    pose proof (be_value_bounds bs) as Hb. rewrite Hval in Hb.
    rewrite digits_value_cons in Hdv.
    pose proof (digits_value_bounds _ (Forall_inv_tail Hall)) as Hr.
    assert (Hlow : 16 ^ Z.of_nat (length rest) <= n) by nia.
    assert (Hpow : 16 ^ Z.of_nat (length rest) < 16 ^ Z.of_nat (2 * length bs)).
    { replace (16 ^ Z.of_nat (2 * length bs)) with (256 ^ Z.of_nat (length bs)).
      - lia.
      - rewrite Nat2Z.inj_mul, Z.pow_mul_r by lia. reflexivity. }
    apply Z.pow_lt_mono_r_iff in Hpow; [|lia|lia].
    pose proof (Nat.div_mod_eq (S (length rest) + 1) 2).
    pose proof (Nat.mod_upper_bound (S (length rest) + 1) 2). lia.
Qed.

(** ** [arrayBufferToBigInt] *)

Lemma push_all {A B : Type} (f : A -> B) (l : list A) (acc : list B) :
  fold_left (fun hex i => hex ++ [f i]) l acc = acc ++ map f l.
Proof.
  revert acc. induction l as [|x l IH]; intros acc; simpl.
  - rewrite app_nil_r. reflexivity.
  - rewrite IH, <- app_assoc. reflexivity.
Qed.

(** [("0" + i.toString(16)).slice(-2)] is the two-digit form of a byte. *)
Lemma byte_two_digits (b : byte) :
  Js.slice_last (48 :: Js.toString16 (byte_val b)) 2
  = map Js.hex_digit_char [byte_val b / 16; byte_val b mod 16].
Proof. destruct b; reflexivity. Qed.

Lemma hex_of_bytes (bs : list byte) :
  concat (map (fun i => Js.slice_last (48 :: Js.toString16 (byte_val i)) 2) bs)
  = map Js.hex_digit_char (nibbles bs).
Proof.
  unfold nibbles. induction bs as [|b bs IH]; [reflexivity|].
  cbn [map concat flat_map]. rewrite IH, byte_two_digits, map_app.
  reflexivity.
Qed.

Lemma nibbles_digits (bs : list byte) : Forall is_hex_digit (nibbles bs).
Proof.
  unfold nibbles. induction bs as [|b bs IH]; [constructor|].
  cbn [flat_map app]. pose proof (byte_val_range b) as Hb.
  constructor.
  - unfold is_hex_digit.
    split; [apply Z.div_pos; lia | apply Z.div_lt_upper_bound; lia].
  - constructor; [apply Z.mod_pos_bound; lia | exact IH].
Qed.


Lemma nibbles_fold (bs : list byte) (acc : Z) :
  fold_left (fun a d => a * 16 + d) (nibbles bs) acc
  = fold_left (fun a b => a * 256 + byte_val b) bs acc.
Proof.
  unfold nibbles. revert acc. induction bs as [|b bs IH]; intros acc;
    [reflexivity|].
  cbn [flat_map app fold_left]. rewrite IH. f_equal.
  pose proof (Z.div_mod (byte_val b) 16 ltac:(lia)). lia.
Qed.

Lemma digits_value_nibbles (bs : list byte) :
  Js.digits_value (nibbles bs) = be_value bs.
Proof. apply nibbles_fold. Qed.

Lemma trim_end_no_space (s : jsstring) :
  Forall (fun c => Js.is_whitespace c = false) s -> Js.trim_end s = s.
Proof.
  intros Hall. unfold Js.trim_end.
  destruct (rev s) as [|c r] eqn:Hrev.
  - simpl. rewrite <- (rev_involutive s), Hrev. reflexivity.
  - assert (Hc : Js.is_whitespace c = false).
    { rewrite Forall_forall in Hall. apply Hall.
      apply list_elem_of_In, in_rev. rewrite Hrev. left. reflexivity. }
    cbn [Js.trim_start]. rewrite Hc, <- Hrev. apply rev_involutive.
Qed.

(** [BigInt] of ["0x"] followed by digit characters. *)
Lemma BigInt_0x_chars (ds : list Z) :
  Forall is_hex_digit ds ->
  Js.BigInt_0x (map Js.hex_digit_char ds)
  = match ds with
    | [] => inl BigIntSyntaxError
    | _ => inr (Js.digits_value ds)
    end.
Proof.
  intros Hall. unfold Js.BigInt_0x.
  rewrite trim_end_no_space.
  - rewrite hex_prefix_chars by assumption.
    rewrite length_map, Nat.eqb_refl, andb_true_r.
    destruct ds; reflexivity.
  - apply Forall_forall. intros c Hc.
    apply list_elem_of_In, in_map_iff in Hc. destruct Hc as (d & <- & Hd).
    apply hex_digit_char_not_space.
    rewrite Forall_forall in Hall. apply Hall, list_elem_of_In. exact Hd.
Qed.

(** The decoder reads a non-empty buffer as a big-endian number and
    rejects the empty one. *)
Lemma arrayBufferToBigInt_eq (bs : list byte) :
  arrayBufferToBigInt bs
  = match bs with
    | [] => inl BigIntSyntaxError
    | _ => inr (be_value bs)
    end.
Proof.
  unfold arrayBufferToBigInt.
  rewrite push_all, app_nil_l, hex_of_bytes.
  rewrite BigInt_0x_chars by apply nibbles_digits.
  rewrite digits_value_nibbles.
  destruct bs; reflexivity.
Qed.

(** ** [hash] concatenates its chunks *)

Lemma sum_lengths_concat (arrays : list (list byte)) (acc : nat) :
  fold_left (fun p c => (p + length c)%nat) arrays acc
  = (acc + length (concat arrays))%nat.
Proof.
  revert acc. induction arrays as [|a arrays IH]; intros acc; simpl.
  - lia.
  - rewrite IH, length_app. lia.
Qed.

Lemma set_after_prefix (pre a : list byte) (r : nat) :
  (length a <= r)%nat ->
  Js.set (pre ++ Js.zeros r) a (length pre)
  = (pre ++ a) ++ Js.zeros (r - length a).
Proof.
  intros Hle. unfold Js.set, Js.zeros.
  rewrite take_app_length.
  rewrite drop_app_ge by lia.
  replace (length pre + length a - length pre)%nat with (length a) by lia.
  rewrite drop_replicate. rewrite <- app_assoc. reflexivity.
Qed.

Lemma copy_chunks (arrays : list (list byte)) :
  forall (pre : list byte) (r : nat),
    (length (concat arrays) <= r)%nat ->
    fold_left
      (fun (st : list byte * nat) (a : list byte) =>
         let '(target, offset) := st in
         (Js.set target a offset, (offset + length a)%nat))
      arrays (pre ++ Js.zeros r, length pre)
    = ((pre ++ concat arrays) ++ Js.zeros (r - length (concat arrays)),
       (length pre + length (concat arrays))%nat).
Proof.
  induction arrays as [|a arrays IH]; intros pre r Hr; simpl.
  - rewrite app_nil_r, Nat.sub_0_r, Nat.add_0_r. reflexivity.
  - simpl in Hr. rewrite length_app in Hr.
    rewrite set_after_prefix by lia.
    replace (length pre + length a)%nat with (length (pre ++ a))
      by (rewrite length_app; reflexivity).
    rewrite IH by lia.
    rewrite !length_app, <- !app_assoc.
    rewrite Nat.sub_add_distr, Nat.add_assoc. reflexivity.
Qed.

Lemma hash_concat (p : SRPParameters) (arrays : list (list byte)) :
  hash p arrays = H p (concat arrays).
Proof.
  unfold hash. rewrite sum_lengths_concat. simpl.
  pose (g := fun (a : list byte) (st : list byte * nat) =>
               let '(target, offset) := st in
               (Js.set target a offset, (offset + length a)%nat)).
  rewrite (for_loop_ext _ _ (fun i st => g (default [] (arrays !! i)) st))
    by (intros i [t o] _; reflexivity).
  rewrite for_loop_elements. unfold g.
  pose proof (copy_chunks arrays [] (length (concat arrays)) (Nat.le_refl _))
    as Hc.
  simpl in Hc. rewrite Hc, Nat.sub_diag. simpl.
  rewrite app_nil_r. reflexivity.
Qed.

(** ** [xorCrypt] *)

Lemma keystream_byte_range (key iv : list byte) (i : nat) :
  0 <= keystream_byte key iv i < 256.
Proof.
  unfold keystream_byte, Js.xor.
  assert (Hget : forall (a : list byte) idx,
             0 <= default 0 (Js.get a idx) < 256).
  { intros a [k|]; simpl; [|lia].
    destruct (a !! k) as [b|]; simpl; [apply byte_val_range | lia]. }
  apply lxor_byte_range; apply Hget.
Qed.

Lemma xorCrypt_imap (data key iv : list byte) :
  xorCrypt data key iv
  = imap (fun i d => u8 (Z.lxor (byte_val d) (keystream_byte key iv i))) data.
Proof.
  unfold xorCrypt.
  rewrite (for_loop_fill (length data)
             (fun i => Some (keystream_byte key iv i))).
  rewrite (for_loop_fill (length data)).
  apply list_eq. intros k.
  rewrite list_lookup_fmap, list_lookup_imap.
  destruct (data !! k) as [d|] eqn:Hd.
  - pose proof (lookup_lt_Some _ _ _ Hd) as Hk.
    rewrite lookup_seq_lt by assumption. simpl.
    rewrite Hd. simpl.
    rewrite list_lookup_fmap, lookup_seq_lt by assumption. simpl.
    rewrite byte_val_u8, Z.mod_small by apply keystream_byte_range.
    reflexivity.
  - apply lookup_ge_None in Hd.
    rewrite lookup_seq_ge by assumption. reflexivity.
Qed.

Lemma xorCrypt_length (data key iv : list byte) :
  length (xorCrypt data key iv) = length data.
Proof. rewrite xorCrypt_imap. apply length_imap. Qed.

(** Applying the key stream twice gives the data back. *)
Lemma xorCrypt_involutive (data key iv : list byte) :
  xorCrypt (xorCrypt data key iv) key iv = data.
Proof.
  rewrite !xorCrypt_imap. apply list_eq. intros k.
  rewrite !list_lookup_imap.
  destruct (data !! k) as [d|]; [|reflexivity]. simpl. f_equal.
  rewrite byte_val_u8.
  rewrite Z.mod_small
    by (apply lxor_byte_range;
        [apply byte_val_range | apply keystream_byte_range]).
  rewrite Z.lxor_assoc, Z.lxor_nilpotent, Z.lxor_0_r.
  apply u8_byte_val.
Qed.

(** With a non-empty key and IV the key-stream byte is the XOR of the key
    byte and the IV byte at the wrapped positions. *)
Lemma keystream_byte_wrapped (key iv : list byte) (i : nat) :
  key <> [] -> iv <> [] ->
  exists kb vb : byte,
    key !! (i mod length key)%nat = Some kb /\
    iv !! (i mod length iv)%nat = Some vb /\
    keystream_byte key iv i = Z.lxor (byte_val kb) (byte_val vb).
Proof.
  intros Hk Hv.
  assert (Hlk : (0 < length key)%nat) by (destruct key; simpl; [congruence|lia]).
  assert (Hlv : (0 < length iv)%nat) by (destruct iv; simpl; [congruence|lia]).
  destruct (lookup_lt_is_Some_2 key (i mod length key)%nat) as [kb Hkb];
    [apply Nat.mod_upper_bound; lia|].
  destruct (lookup_lt_is_Some_2 iv (i mod length iv)%nat) as [vb Hvb];
    [apply Nat.mod_upper_bound; lia|].
  exists kb, vb. repeat split; try assumption.
  unfold keystream_byte, Js.index_rem.
  destruct (length key) eqn:Ek; [lia|].
  destruct (length iv) eqn:Ev; [lia|].
  unfold Js.get. rewrite Hkb, Hvb. reflexivity.
Qed.

(** ** [generateIV] *)

Lemma generateIV_eq (w : World) :
  generateIV w
  = (map (fun i => u8 (Random.floor_times_256
                         (math_random_seq w (i + math_random_pos w)%nat)))
         (seq 0 16),
     {| math_random_seq := math_random_seq w;
        math_random_pos := (16 + math_random_pos w)%nat;
        csprng_seq := csprng_seq w;
        csprng_pos := csprng_pos w |}).
Proof. destruct w. reflexivity. Qed.

Lemma generateIV_length (w : World) : length (fst (generateIV w)) = 16%nat.
Proof. rewrite generateIV_eq. reflexivity. Qed.

(** ** [deriveKeys], [computeMAC], [encrypt], [decrypt] *)

Lemma deriveKeys_eq (c : CompatibleCrypto) (S : bigint) :
  deriveKeys c S
  = {| encKey := SHA512 c (bigIntToArrayBuffer S
                             ++ Js.TextEncoder_encode (lit "encryption"));
       macKey := SHA512 c (bigIntToArrayBuffer S
                             ++ Js.TextEncoder_encode (lit "authentication")) |}.
Proof.
  unfold deriveKeys. rewrite !hash_concat.
  unfold concat. rewrite !app_nil_r. reflexivity.
Qed.

Lemma computeMAC_eq (c : CompatibleCrypto) (macKey iv ct : list byte) :
  computeMAC c macKey iv ct = SHA512 c (macKey ++ iv ++ ct).
Proof.
  unfold computeMAC. rewrite hash_concat.
  unfold concat. rewrite app_nil_r. reflexivity.
Qed.

Lemma set_two_parts (a b : list byte) :
  Js.set (Js.set (Js.zeros (length a + length b)) a 0) b (length a) = a ++ b.
Proof.
  pose proof (set_after_prefix [] a (length a + length b) ltac:(lia)) as H1.
  simpl in H1. rewrite H1.
  replace (length a + length b - length a)%nat with (length b) by lia.
  pose proof (set_after_prefix a b (length b) ltac:(lia)) as H2.
  rewrite H2, Nat.sub_diag. apply app_nil_r.
Qed.

Lemma slice_from_0 {A : Type} (l : list A) (n : nat) :
  Js.slice l 0 n = take n l.
Proof. unfold Js.slice. rewrite Nat.sub_0_r. reflexivity. Qed.

Lemma slice_to_end {A : Type} (l : list A) (n : nat) :
  Js.slice l n (length l) = drop n l.
Proof.
  unfold Js.slice. apply take_ge. rewrite length_drop. lia.
Qed.

(** What [encrypt] returns, in closed form. *)
Lemma encrypt_eq (c : CompatibleCrypto) (S : bigint) (data : Data) (w : World) :
  encrypt c S data w
  = ({| iv := fst (generateIV w);
        ciphertext :=
          xorCrypt (plaintext_bytes data) (encKey (deriveKeys c S))
                   (fst (generateIV w))
          ++ take 16
               (SHA512 c
                  (macKey (deriveKeys c S) ++ fst (generateIV w)
                   ++ xorCrypt (plaintext_bytes data)
                        (encKey (deriveKeys c S)) (fst (generateIV w)))) |},
     snd (generateIV w)).
Proof.
  unfold encrypt. destruct (deriveKeys c S) as [ek mk].
  destruct (generateIV w) as [ivb w']. cbn [fst snd encKey macKey].
  rewrite set_two_parts, slice_from_0, computeMAC_eq.
  reflexivity.
Qed.

(** The comparison loop of [decrypt] visits all 16 positions and succeeds
    exactly when the two tags agree at each of them. *)
Lemma tag_loop_true (received computed : list byte) (n : nat) :
  Js.for_loop n
    (fun i (tagMatch : bool) =>
       if negb (Js.strict_eq (received !! i) (computed !! i))
       then false else tagMatch)
    true = true
  <-> forall i, (i < n)%nat -> received !! i = computed !! i.
Proof.
  induction n as [|n IH].
  - split; [intros _ i Hi; lia | reflexivity].
  - rewrite for_loop_S.
    destruct (Js.strict_eq (received !! n) (computed !! n)) eqn:Hn; simpl.
    + apply strict_eq_true in Hn. rewrite IH. split.
      * intros Hall i Hi. destruct (decide (i = n)) as [->|]; [assumption|].
        apply Hall. lia.
      * intros Hall i Hi. apply Hall. lia.
    + split; [discriminate|]. intros Hall.
      rewrite <- Hn. apply strict_eq_true. apply Hall. lia.
Qed.

Lemma tags_equal_iff (received computed : list byte) :
  length received = 16%nat -> length computed = 16%nat ->
  (forall i, (i < 16)%nat -> received !! i = computed !! i)
  <-> received = computed.
Proof.
  intros Hr Hc. split; [|intros ->; reflexivity].
  intros Hall. apply list_eq. intros i.
  destruct (decide (i < 16)%nat) as [Hi|Hi]; [apply Hall; assumption|].
  rewrite !lookup_ge_None_2 by lia. reflexivity.
Qed.

Lemma sha512_tag_length (c : CompatibleCrypto) (d : list byte) :
  digest_lengths c -> length (take 16 (SHA512 c d)) = 16%nat.
Proof.
  intros (_ & _ & _ & H512). rewrite length_take, H512. reflexivity.
Qed.

(** [decrypt] as a case analysis on the length and on the tag. *)
Lemma decrypt_cases (c : CompatibleCrypto) (S : bigint) (iv ct : list byte) :
  digest_lengths c ->
  let keys := deriveKeys c S in
  let prefix := take (length ct - 16) ct in
  let tag := take 16 (SHA512 c (macKey keys ++ iv ++ prefix)) in
  ((length ct < 16)%nat /\ decrypt c S iv ct = inl CiphertextTooShort) \/
  ((16 <= length ct)%nat /\ tag <> drop (length ct - 16) ct /\
     decrypt c S iv ct = inl AuthTagMismatch) \/
  ((16 <= length ct)%nat /\ tag = drop (length ct - 16) ct /\
     decrypt c S iv ct = inr (xorCrypt prefix (encKey keys) iv)).
Proof.
  intros Hlen. unfold decrypt. destruct (deriveKeys c S) as [ek mk]. simpl.
  destruct (Nat.ltb_spec (length ct) 16) as [Hshort|Hlong]; [left; auto|].
  right.
  rewrite slice_from_0, slice_to_end, computeMAC_eq, slice_from_0.
  set (prefix := take (length ct - 16) ct).
  set (tag := take 16 (SHA512 c (mk ++ iv ++ prefix))).
  set (received := drop (length ct - 16) ct).
  assert (Hr : length received = 16%nat)
    by (unfold received; rewrite length_drop; lia).
  assert (Ht : length tag = 16%nat)
    by (apply sha512_tag_length; assumption).
  pose proof (tag_loop_true received tag 16) as Hloop.
  rewrite (tags_equal_iff received tag Hr Ht) in Hloop.
  destruct (Js.for_loop 16 _ true); simpl.
  - right. repeat split; try assumption.
    symmetry. apply Hloop. reflexivity.
  - left. repeat split; try assumption.
    intros Heq. symmetry in Heq. apply Hloop in Heq. discriminate.
Qed.

(** The toy digests have the lengths of the real ones. *)
Lemma toy_digest_lengths : digest_lengths toy_crypto.
Proof.
  unfold digest_lengths, toy_crypto, toy_digest; cbn [SHA1 SHA256 SHA384 SHA512].
  repeat split; intros d; rewrite length_map, length_seq; reflexivity.
Qed.

(** Whatever the IV, a plaintext XORed with the key stream and followed by
    its tag decrypts to itself. *)
Lemma decrypt_sealed (c : CompatibleCrypto) (S : bigint)
    (ivb plaintext : list byte) :
  digest_lengths c ->
  decrypt c S ivb
    (xorCrypt plaintext (encKey (deriveKeys c S)) ivb
     ++ take 16
          (SHA512 c
             (macKey (deriveKeys c S) ++ ivb
              ++ xorCrypt plaintext (encKey (deriveKeys c S)) ivb)))
  = inr plaintext.
Proof.
  intros Hlen.
  set (keys := deriveKeys c S).
  set (enc := xorCrypt plaintext (encKey keys) ivb).
  set (tag := take 16 (SHA512 c (macKey keys ++ ivb ++ enc))).
  assert (Ht : length tag = 16%nat) by (apply sha512_tag_length; assumption).
  assert (Hpre : take (length (enc ++ tag) - 16) (enc ++ tag) = enc).
  { rewrite length_app, Ht, Nat.add_sub. apply take_app_length. }
  assert (Hsuf : drop (length (enc ++ tag) - 16) (enc ++ tag) = tag).
  { rewrite length_app, Ht, Nat.add_sub. apply drop_app_length. }
  destruct (decrypt_cases c S ivb (enc ++ tag) Hlen)
    as [[Hshort _] | [(_ & Hne & _) | (_ & _ & Hok)]].
  - rewrite length_app, Ht in Hshort. lia.
  - exfalso. apply Hne. rewrite Hpre, Hsuf. reflexivity.
  - rewrite Hok, Hpre. unfold enc. fold keys.
    rewrite xorCrypt_involutive. reflexivity.
Qed.

(** C1 — decryption inverts encryption: for every session secret, every
    state of the random sources (hence every IV drawn) and every plaintext,
    given as a string or as a buffer, decrypting what [encrypt] returns with
    the same secret and the returned IV yields exactly the plaintext bytes
    (the UTF-8 encoding for a string). *)
Theorem decrypt_encrypt_roundtrip (c : CompatibleCrypto) (S : bigint)
    (data : Data) (w : World) :
  digest_lengths c ->
  decrypt c S (iv (fst (encrypt c S data w)))
              (ciphertext (fst (encrypt c S data w)))
  = inr (plaintext_bytes data).
Proof.
  intros Hlen. rewrite encrypt_eq. cbn [fst iv ciphertext].
  apply decrypt_sealed. assumption.
Qed.

Lemma decrypt_encrypt_roundtrip_witness :
  decrypt toy_crypto 12345
    (iv (fst (encrypt toy_crypto 12345 (DataString (lit "Hello")) toy_world)))
    (ciphertext
       (fst (encrypt toy_crypto 12345 (DataString (lit "Hello")) toy_world)))
  = inr (plaintext_bytes (DataString (lit "Hello"))).
Proof.
  apply (decrypt_encrypt_roundtrip toy_crypto 12345
           (DataString (lit "Hello")) toy_world).
  exact toy_digest_lengths.
Defined.

(** C3 — the errors of [decrypt]: it raises the short-ciphertext error
    exactly when the input has fewer than 16 bytes; for an input of at least
    16 bytes it raises the tag-mismatch error exactly when the first 16
    bytes of H(macKey || iv || prefix) differ from the last 16 bytes of the
    input; otherwise it returns the prefix XORed with the key stream; and it
    raises nothing else. *)
Theorem decrypt_error_conditions (c : CompatibleCrypto) (S : bigint)
    (iv ct : list byte) :
  digest_lengths c ->
  let keys := deriveKeys c S in
  let prefix := take (length ct - 16) ct in
  let tag := take 16 (SHA512 c (macKey keys ++ iv ++ prefix)) in
  (decrypt c S iv ct = inl CiphertextTooShort <-> (length ct < 16)%nat) /\
  ((16 <= length ct)%nat ->
     (decrypt c S iv ct = inl AuthTagMismatch
      <-> tag <> drop (length ct - 16) ct)) /\
  ((16 <= length ct)%nat -> tag = drop (length ct - 16) ct ->
     decrypt c S iv ct = inr (xorCrypt prefix (encKey keys) iv)) /\
  (forall e, decrypt c S iv ct = inl e ->
     e = CiphertextTooShort \/ e = AuthTagMismatch).
Proof.
  intros Hlen keys prefix tag.
  destruct (decrypt_cases c S iv ct Hlen)
    as [[Hshort Hd] | [(Hlong & Hne & Hd) | (Hlong & Heq & Hd)]];
    fold keys prefix tag in Hd; try fold keys prefix tag in Hne;
    try fold keys prefix tag in Heq; rewrite Hd;
    (split; [split|split; [intros ?; split|split]]);
    intros; try lia; try congruence; try contradiction; auto.
  - match goal with E : inl _ = inl _ |- _ => injection E as <- end. auto.
  - match goal with E : inl _ = inl _ |- _ => injection E as <- end. auto.
Qed.

Lemma decrypt_error_conditions_witness :
  let c := toy_crypto in
  let ct := replicate 16 x00 in
  let keys := deriveKeys c 12345 in
  let prefix := take (length ct - 16) ct in
  let tag := take 16 (SHA512 c (macKey keys ++ [] ++ prefix)) in
  (decrypt c 12345 [] ct = inl CiphertextTooShort <-> (length ct < 16)%nat) /\
  ((16 <= length ct)%nat ->
     (decrypt c 12345 [] ct = inl AuthTagMismatch
      <-> tag <> drop (length ct - 16) ct)) /\
  ((16 <= length ct)%nat -> tag = drop (length ct - 16) ct ->
     decrypt c 12345 [] ct = inr (xorCrypt prefix (encKey keys) [])) /\
  (forall e, decrypt c 12345 [] ct = inl e ->
     e = CiphertextTooShort \/ e = AuthTagMismatch).
Proof.
  apply (decrypt_error_conditions toy_crypto 12345 [] (replicate 16 x00)).
  exact toy_digest_lengths.
Defined.

(** C4 — layout of the ciphertext field: for a plaintext of L bytes
    [encrypt] returns a 16-byte IV and L + 16 bytes of ciphertext; byte i
    of the first L is plaintext[i] XOR encKey[i mod |encKey|] XOR
    IV[i mod 16]; the last 16 bytes are the first 16 bytes of
    H(macKey || IV || first L bytes). *)
Theorem encrypt_ciphertext_layout (c : CompatibleCrypto) (S : bigint)
    (data : Data) (w : World) :
  digest_lengths c ->
  let keys := deriveKeys c S in
  let msg := fst (encrypt c S data w) in
  let L := length (plaintext_bytes data) in
  length (iv msg) = 16%nat /\
  length (ciphertext msg) = (L + 16)%nat /\
  (forall i, (i < L)%nat ->
     exists pb kb vb cb : byte,
       plaintext_bytes data !! i = Some pb /\
       encKey keys !! (i mod length (encKey keys))%nat = Some kb /\
       iv msg !! (i mod 16)%nat = Some vb /\
       ciphertext msg !! i = Some cb /\
       byte_val cb
       = Z.lxor (Z.lxor (byte_val pb) (byte_val kb)) (byte_val vb)) /\
  drop L (ciphertext msg)
  = take 16 (SHA512 c (macKey keys ++ iv msg ++ take L (ciphertext msg))).
Proof.
  intros Hlen keys msg L. unfold msg. rewrite encrypt_eq.
  cbn [fst iv ciphertext].
  fold keys.
  set (ivb := fst (generateIV w)).
  set (enc := xorCrypt (plaintext_bytes data) (encKey keys) ivb).
  set (tag := take 16 (SHA512 c (macKey keys ++ ivb ++ enc))).
  assert (Hiv : length ivb = 16%nat) by apply generateIV_length.
  assert (Ht : length tag = 16%nat) by (apply sha512_tag_length; assumption).
  assert (He : length enc = L) by apply xorCrypt_length.
  assert (Hk : length (encKey keys) = 64%nat).
  { unfold keys. rewrite deriveKeys_eq. cbn [encKey].
    destruct Hlen as (_ & _ & _ & H512). apply H512. }
  split; [assumption|].
  split; [rewrite length_app; lia|].
  split.
  - intros i Hi.
    destruct (lookup_lt_is_Some_2 (plaintext_bytes data) i Hi) as [pb Hpb].
    destruct (keystream_byte_wrapped (encKey keys) ivb i)
      as (kb & vb & Hkb & Hvb & Hks).
    { apply nonempty_of_length. rewrite Hk. lia. }
    { apply nonempty_of_length. rewrite Hiv. lia. }
    rewrite Hiv in Hvb.
    exists pb, kb, vb,
      (u8 (Z.lxor (byte_val pb) (keystream_byte (encKey keys) ivb i))).
    repeat split; try assumption.
    + rewrite lookup_app_l by lia. unfold enc.
      rewrite xorCrypt_imap, list_lookup_imap, Hpb. reflexivity.
    + rewrite byte_val_u8, Z.mod_small
        by (apply lxor_byte_range;
            [apply byte_val_range | apply keystream_byte_range]).
      rewrite Hks, Z.lxor_assoc. reflexivity.
  - rewrite <- He, drop_app_length, take_app_length. reflexivity.
Qed.

Lemma encrypt_ciphertext_layout_witness :
  let c := toy_crypto in
  let data := DataBuffer [x01; x02; x03] in
  let keys := deriveKeys c 12345 in
  let msg := fst (encrypt c 12345 data toy_world) in
  let L := length (plaintext_bytes data) in
  length (iv msg) = 16%nat /\
  length (ciphertext msg) = (L + 16)%nat /\
  (forall i, (i < L)%nat ->
     exists pb kb vb cb : byte,
       plaintext_bytes data !! i = Some pb /\
       encKey keys !! (i mod length (encKey keys))%nat = Some kb /\
       iv msg !! (i mod 16)%nat = Some vb /\
       ciphertext msg !! i = Some cb /\
       byte_val cb
       = Z.lxor (Z.lxor (byte_val pb) (byte_val kb)) (byte_val vb)) /\
  drop L (ciphertext msg)
  = take 16 (SHA512 c (macKey keys ++ iv msg ++ take L (ciphertext msg))).
Proof.
  apply (encrypt_ciphertext_layout toy_crypto 12345
           (DataBuffer [x01; x02; x03]) toy_world).
  exact toy_digest_lengths.
Defined.

(** ** Conversions between bigints and bytes *)

(** C9 — for every non-negative bigint [n], [bigIntToArrayBuffer n] is
    the minimum-length big-endian encoding of [n]: it denotes [n] most
    significant byte first, it has at least one byte, and no non-empty byte
    string denoting [n] is shorter; and [arrayBufferToBigInt] maps it back
    to [n]. *)
Theorem bigint_bytes_roundtrip (n : bigint) :
  0 <= n ->
  be_value (bigIntToArrayBuffer n) = n /\
  bigIntToArrayBuffer n <> [] /\
  (forall bs : list byte,
     bs <> [] -> be_value bs = n ->
     (length (bigIntToArrayBuffer n) <= length bs)%nat) /\
  arrayBufferToBigInt (bigIntToArrayBuffer n) = inr n.
Proof.
  intros Hn.
  pose proof (bigIntToArrayBuffer_value n Hn) as Hval.
  pose proof (bigIntToArrayBuffer_nonempty n Hn) as Hne.
  split; [exact Hval|]. split; [exact Hne|]. split.
  - intros bs Hbs Hv. apply bigIntToArrayBuffer_minimal; assumption.
  - rewrite arrayBufferToBigInt_eq, Hval.
    destruct (bigIntToArrayBuffer n); [congruence | reflexivity].
Qed.

Lemma bigint_bytes_roundtrip_witness :
  be_value (bigIntToArrayBuffer 43981) = 43981 /\
  bigIntToArrayBuffer 43981 <> [] /\
  (forall bs : list byte,
     bs <> [] -> be_value bs = 43981 ->
     (length (bigIntToArrayBuffer 43981) <= length bs)%nat) /\
  arrayBufferToBigInt (bigIntToArrayBuffer 43981) = inr 43981.
Proof. apply (bigint_bytes_roundtrip 43981). lia. Defined.

(** ** Key derivation *)

(** C5 — the two keys are H(S_bytes || UTF8("encryption")) and
    H(S_bytes || UTF8("authentication")), S_bytes being the unpadded
    big-endian encoding of the premaster [S]; H is SHA-512, so each key has
    64 bytes. *)
Theorem deriveKeys_derivation (c : CompatibleCrypto) (S : bigint) :
  digest_lengths c -> 0 <= S ->
  let sBytes := bigIntToArrayBuffer S in
  let keys := deriveKeys c S in
  be_value sBytes = S /\
  (forall bs : list byte,
     bs <> [] -> be_value bs = S -> (length sBytes <= length bs)%nat) /\
  Js.TextEncoder_encode (lit "encryption") = list_byte_of_string "encryption" /\
  Js.TextEncoder_encode (lit "authentication")
  = list_byte_of_string "authentication" /\
  encKey keys = SHA512 c (sBytes ++ list_byte_of_string "encryption") /\
  macKey keys = SHA512 c (sBytes ++ list_byte_of_string "authentication") /\
  length (encKey keys) = 64%nat /\
  length (macKey keys) = 64%nat.
Proof.
  intros Hlen HS sBytes keys.
  assert (He : Js.TextEncoder_encode (lit "encryption")
               = list_byte_of_string "encryption") by reflexivity.
  assert (Ha : Js.TextEncoder_encode (lit "authentication")
               = list_byte_of_string "authentication") by reflexivity.
  unfold keys. rewrite deriveKeys_eq. cbn [encKey macKey].
  rewrite He, Ha. fold sBytes.
  destruct Hlen as (_ & _ & _ & H512).
  split; [apply bigIntToArrayBuffer_value; assumption|].
  split; [intros bs Hbs Hv; apply bigIntToArrayBuffer_minimal; assumption|].
  repeat split; try reflexivity; apply H512.
Qed.

Lemma deriveKeys_derivation_witness :
  let c := toy_crypto in
  let sBytes := bigIntToArrayBuffer 12345 in
  let keys := deriveKeys c 12345 in
  be_value sBytes = 12345 /\
  (forall bs : list byte,
     bs <> [] -> be_value bs = 12345 -> (length sBytes <= length bs)%nat) /\
  Js.TextEncoder_encode (lit "encryption") = list_byte_of_string "encryption" /\
  Js.TextEncoder_encode (lit "authentication")
  = list_byte_of_string "authentication" /\
  encKey keys = SHA512 c (sBytes ++ list_byte_of_string "encryption") /\
  macKey keys = SHA512 c (sBytes ++ list_byte_of_string "authentication") /\
  length (encKey keys) = 64%nat /\
  length (macKey keys) = 64%nat.
Proof.
  apply (deriveKeys_derivation toy_crypto 12345);
    [exact toy_digest_lengths | lia].
Defined.

(** ** Which hash the encryption layer uses *)

(** On a platform whose digests have their standard lengths, a session
    configured with SHA-1 gets keys of 64 bytes, not of 20: the configured
    hash is not the one used. *)
Lemma configured_hash_not_used (c : CompatibleCrypto) :
  digest_lengths c -> ~ uses_configured_hash c.
Proof.
  intros (H1 & _ & _ & H512) Huses.
  destruct (Huses {| H := SHA1 c |} ltac:(left; reflexivity) 0 [] [] [])
    as [Hkeys _].
  rewrite deriveKeys_eq in Hkeys. unfold derive_with in Hkeys.
  cbn [H] in Hkeys. injection Hkeys as Henc _.
  apply (f_equal (@length byte)) in Henc.
  rewrite H512, H1 in Henc. discriminate.
Qed.

(** C6, as stated, fails: it is not true that on every platform with the
    standard digest lengths the encryption layer derives its keys and tags
    with the hash configured in the session's parameters. *)
Lemma configured_hash_counterexample :
  ~ (forall c : CompatibleCrypto, digest_lengths c -> uses_configured_hash c).
Proof.
  intros Hall.
  apply (configured_hash_not_used toy_crypto toy_digest_lengths).
  apply Hall. exact toy_digest_lengths.
Qed.

(** Agreement with a supported selection forces that selection to be
    SHA-512: the three other digests have another output length. *)
Lemma default_hash_only (c : CompatibleCrypto) (h : HashFunction)
    (d : list byte) :
  digest_lengths c -> supported_hash c h -> SHA512 c d = h d -> h = SHA512 c.
Proof.
  intros (H1 & H256 & H384 & H512) Hsup Heq.
  apply (f_equal (@length byte)) in Heq. rewrite H512 in Heq.
  destruct Hsup as [-> | [-> | [-> | ->]]]; [exfalso..|reflexivity].
  - rewrite H1 in Heq. discriminate.
  - rewrite H256 in Heq. discriminate.
  - rewrite H384 in Heq. discriminate.
Qed.

(** C6, amended — whatever hash the session's parameters select, the
    encryption layer derives its keys and computes its tag with the hash of
    a freshly constructed default [SRPParameters], that is SHA-512.  It
    agrees with the configured hash when that is SHA-512, and only then: on
    a platform whose digests have their standard lengths, if for a
    supported selection the keys of one secret or the tag of one message
    are those the configured hash would give, the configured hash is
    SHA-512. *)
Theorem encryption_uses_default_hash (c : CompatibleCrypto)
    (session : SRPParameters) (S : bigint) (macKey iv ct : list byte) :
  H (new_SRPParameters c) = SHA512 c /\
  deriveKeys c S = derive_with (H (new_SRPParameters c)) S /\
  computeMAC c macKey iv ct = mac_with (H (new_SRPParameters c)) macKey iv ct /\
  (H session = H (new_SRPParameters c) ->
     deriveKeys c S = derive_with (H session) S /\
     computeMAC c macKey iv ct = mac_with (H session) macKey iv ct) /\
  (digest_lengths c -> supported_hash c (H session) ->
     deriveKeys c S = derive_with (H session) S \/
     computeMAC c macKey iv ct = mac_with (H session) macKey iv ct ->
     H session = SHA512 c).
Proof.
  assert (Hd : deriveKeys c S = derive_with (H (new_SRPParameters c)) S)
    by apply deriveKeys_eq.
  assert (Hm : computeMAC c macKey iv ct
               = mac_with (H (new_SRPParameters c)) macKey iv ct)
    by apply computeMAC_eq.
  split; [reflexivity|]. split; [exact Hd|]. split; [exact Hm|].
  split; [intros ->; split; assumption|].
  intros Hlen Hsup [Hkeys | Htag].
  - rewrite deriveKeys_eq in Hkeys. unfold derive_with in Hkeys.
    injection Hkeys as Henc _.
    exact (default_hash_only c (H session) _ Hlen Hsup Henc).
  - rewrite computeMAC_eq in Htag. unfold mac_with in Htag.
    exact (default_hash_only c (H session) _ Hlen Hsup Htag).
Qed.

(** On the example platform a session configured with SHA-512 is one the
    encryption layer agrees with, and the theorem gives back that its hash
    is SHA-512. *)
Lemma encryption_uses_default_hash_witness :
  digest_lengths toy_crypto /\
  supported_hash toy_crypto (H (new_SRPParameters toy_crypto)) /\
  deriveKeys toy_crypto 5
  = derive_with (H (new_SRPParameters toy_crypto)) 5 /\
  H (new_SRPParameters toy_crypto) = SHA512 toy_crypto.
Proof.
  assert (Hsup : supported_hash toy_crypto (H (new_SRPParameters toy_crypto)))
    by (right; right; right; reflexivity).
  assert (Hkeys : deriveKeys toy_crypto 5
                  = derive_with (H (new_SRPParameters toy_crypto)) 5)
    by apply deriveKeys_eq.
  split; [exact toy_digest_lengths|]. split; [exact Hsup|].
  split; [exact Hkeys|].
  apply (proj2 (proj2 (proj2 (proj2
           (encryption_uses_default_hash toy_crypto
              (new_SRPParameters toy_crypto) 5 [] [] []))))
           toy_digest_lengths Hsup).
  left. exact Hkeys.
Defined.

(** ** Where the IV comes from *)

(** The sibling path of [utils.ts]: [generateRandom] takes its bytes from
    the CSPRNG and leaves [Math.random] alone. *)
Lemma generateRandom_source (numBytes : nat) (w : World) :
  fst (generateRandom numBytes w)
  = map (fun i => csprng_seq w (i + csprng_pos w)%nat) (seq 0 numBytes) /\
  csprng_pos (snd (generateRandom numBytes w))
  = (numBytes + csprng_pos w)%nat /\
  math_random_pos (snd (generateRandom numBytes w)) = math_random_pos w.
Proof.
  unfold generateRandom, Random.randomBytes, Js.zeros.
  cbn [fst snd csprng_pos math_random_pos].
  rewrite length_replicate. repeat split; reflexivity.
Qed.

Lemma generateIV_csprng_irrelevant (w : World) (other : nat -> byte)
    (pos : nat) :
  fst (generateIV {| math_random_seq := math_random_seq w;
                     math_random_pos := math_random_pos w;
                     csprng_seq := other;
                     csprng_pos := pos |})
  = fst (generateIV w).
Proof. rewrite !generateIV_eq. reflexivity. Qed.

(** The IV is the one [generateIV] draws, the world [encrypt] leaves behind
    is the one [generateIV] leaves behind, and the message depends on the
    world through the IV only. *)
Lemma encrypt_iv (c : CompatibleCrypto) (S : bigint) (data : Data) (w : World) :
  iv (fst (encrypt c S data w)) = fst (generateIV w).
Proof.
  unfold encrypt. destruct (deriveKeys c S) as [ek mk].
  destruct (generateIV w) as [ivb w']. reflexivity.
Qed.

Lemma encrypt_world (c : CompatibleCrypto) (S : bigint) (data : Data)
    (w : World) :
  snd (encrypt c S data w) = snd (generateIV w).
Proof.
  unfold encrypt. destruct (deriveKeys c S) as [ek mk].
  destruct (generateIV w) as [ivb w']. reflexivity.
Qed.

Lemma encrypt_message_iv_only (c : CompatibleCrypto) (S : bigint)
    (data : Data) (w1 w2 : World) :
  fst (generateIV w1) = fst (generateIV w2) ->
  fst (encrypt c S data w1) = fst (encrypt c S data w2).
Proof.
  unfold encrypt. destruct (deriveKeys c S) as [ek mk].
  destruct (generateIV w1) as [iv1 w1'], (generateIV w2) as [iv2 w2'].
  cbn [fst]. intros ->. reflexivity.
Qed.

(** C2, evaluated on the code — every call of [encrypt] returns a 16-byte
    IV, but its bytes are [Math.floor(Math.random() * 256)] for the next 16
    outcomes of [Math.random]; the CSPRNG is not consulted: its cursor does
    not move, and replacing its output changes neither the IV nor the
    ciphertext. *)
Theorem encrypt_iv_from_Math_random (c : CompatibleCrypto) (S : bigint)
    (data : Data) (w : World) :
  length (iv (fst (encrypt c S data w))) = 16%nat /\
  iv (fst (encrypt c S data w))
  = map (fun i => u8 (Random.floor_times_256
                        (math_random_seq w (i + math_random_pos w)%nat)))
        (seq 0 16) /\
  math_random_pos (snd (encrypt c S data w)) = (16 + math_random_pos w)%nat /\
  csprng_pos (snd (encrypt c S data w)) = csprng_pos w /\
  forall (other : nat -> byte) (pos : nat),
    fst (encrypt c S data
           {| math_random_seq := math_random_seq w;
              math_random_pos := math_random_pos w;
              csprng_seq := other;
              csprng_pos := pos |})
    = fst (encrypt c S data w).
Proof.
  split; [rewrite encrypt_iv; apply generateIV_length|].
  split; [rewrite encrypt_iv, generateIV_eq; reflexivity|].
  split; [rewrite encrypt_world, generateIV_eq; reflexivity|].
  split; [rewrite encrypt_world, generateIV_eq; reflexivity|].
  intros other pos.
  apply encrypt_message_iv_only, generateIV_csprng_irrelevant.
Qed.

Example encrypt_iv_toy_world :
  map byte_val (iv (fst (encrypt toy_crypto 1 (DataString []) toy_world)))
  = [12; 107; 202; 40; 135; 230; 69; 163; 2; 97; 192; 30; 125; 220; 58; 153]
  /\ csprng_pos (snd (encrypt toy_crypto 1 (DataString []) toy_world)) = 0%nat
  /\ map byte_val (fst (generateRandom 4 toy_world)) = [17; 108; 199; 34].
Proof. repeat split; vm_compute; reflexivity. Qed.

(** ** Verifier creation *)

Lemma truthy_string_false (s : option jsstring) :
  truthy_string s = false <-> s = None \/ s = Some [].
Proof.
  destruct s as [[|c s]|]; simpl; split; intros Hs;
    try discriminate; auto;
    destruct Hs as [Hs|Hs]; discriminate.
Qed.

Lemma truthy_bigint_false (n : option bigint) :
  truthy_bigint n = false <-> n = None \/ n = Some 0.
Proof.
  destruct n as [v|]; simpl.
  - destruct (Z.eqb_spec v 0) as [->|Hv]; simpl; split; intros Hs;
      try discriminate; auto.
    destruct Hs as [Hs|Hs]; [discriminate | congruence].
  - split; auto.
Qed.

Lemma identity_check (I : option jsstring) :
  negb (truthy_string I) || negb (truthy_string (Js.trim <$> I)) = true
  <-> blank_identity I.
Proof.
  destruct I as [i|]; simpl; [|tauto].
  destruct i as [|c i]; simpl; [tauto|].
  destruct (Js.trim (c :: i)); simpl; split; congruence.
Qed.

(** [createVerifier] as a case analysis on its three guards. *)
Lemma createVerifier_cases (r : SRPRoutines) (I : option jsstring)
    (s : option bigint) (P : option jsstring) :
  (blank_identity I /\ createVerifier r I s P = inl IdentityNullOrEmpty) \/
  (~ blank_identity I /\ (s = None \/ s = Some 0) /\
     createVerifier r I s P = inl SaltNull) \/
  (~ blank_identity I /\ ~ (s = None \/ s = Some 0) /\
     (P = None \/ P = Some []) /\
     createVerifier r I s P = inl PasswordNull) \/
  (exists i s0 p,
     I = Some i /\ s = Some s0 /\ P = Some p /\
     ~ blank_identity I /\ s0 <> 0 /\ p <> [] /\
     createVerifier r I s P = inr (computeVerifier r (computeX r i s0 p))).
Proof.
  unfold createVerifier.
  destruct (negb (truthy_string I) || negb (truthy_string (Js.trim <$> I)))
    eqn:HI.
  { left. split; [apply identity_check; assumption | reflexivity]. }
  assert (HnI : ~ blank_identity I).
  { intros Hb. apply identity_check in Hb. congruence. }
  right.
  destruct (truthy_bigint s) eqn:Hs; cbn [negb].
  2:{ left. split; [assumption|]. split; [|reflexivity].
      apply truthy_bigint_false. assumption. }
  assert (Hns : ~ (s = None \/ s = Some 0)).
  { intros Hb. apply truthy_bigint_false in Hb. congruence. }
  right.
  destruct (truthy_string P) eqn:HP; cbn [negb].
  2:{ left. split; [assumption|]. split; [assumption|]. split; [|reflexivity].
      apply truthy_string_false. assumption. }
  right.
  destruct I as [i|]; [|exfalso; apply HnI; exact Logic.I].
  destruct s as [s0|]; [|discriminate].
  destruct P as [[|c p]|]; try discriminate.
  exists i, s0, (c :: p). cbn [default].
  repeat split; try assumption; try discriminate.
  intros ->. apply Hns. right. reflexivity.
Qed.

(** The empty password is rejected as well. *)
Example createVerifier_empty_password :
  createVerifier toy_routines (Some (lit "alice")) (Some 7) (Some [])
  = inl PasswordNull.
Proof. reflexivity. Qed.

(** The three guards are falsy tests: [createVerifier] raises an error
    exactly when the identity is null or empty after trimming, the salt is
    null or zero, or the password is null or the empty string; no other
    error is raised; otherwise it returns
    [computeVerifier (computeX I s P)].  [createVerifierAndSalt] draws a
    salt with [generateRandomSalt] and delegates to [createVerifier] with
    it. *)
Lemma createVerifier_rejection (r : SRPRoutines) (I : option jsstring)
    (s : option bigint) (P : option jsstring) :
  ((exists e, createVerifier r I s P = inl e) <-> rejected I s P) /\
  (forall e, createVerifier r I s P = inl e ->
     e = IdentityNullOrEmpty \/ e = SaltNull \/ e = PasswordNull) /\
  (forall v, createVerifier r I s P = inr v ->
     exists i s0 p,
       I = Some i /\ s = Some s0 /\ P = Some p /\
       v = computeVerifier r (computeX r i s0 p)) /\
  (forall (sBytes : option nat) (w : World),
     createVerifierAndSalt r I P sBytes w
     = (match createVerifier r I
                (Some (fst (generateRandomSalt r sBytes w))) P with
        | inr v => inr {| v := v; s := fst (generateRandomSalt r sBytes w) |}
        | inl e => inl e
        end,
        snd (generateRandomSalt r sBytes w))).
Proof.
  split; [|split; [|split]].
  - unfold rejected.
    destruct (createVerifier_cases r I s P)
      as [[Hb Hc] | [(Hnb & Hs & Hc) | [(Hnb & Hns & Hp & Hc)
          | (i & s0 & p & -> & -> & -> & Hnb & Hs0 & Hp & Hc)]]];
      rewrite Hc.
    + split; [tauto | eauto].
    + split; [tauto | eauto].
    + split; [tauto | eauto].
    + split.
      * intros [e He]. discriminate.
      * intros [Hb | [[Hs | Hs] | [Hp' | Hp']]]; try discriminate;
          try contradiction; congruence.
  - intros e.
    destruct (createVerifier_cases r I s P)
      as [[_ Hc] | [(_ & _ & Hc) | [(_ & _ & _ & Hc)
          | (i & s0 & p & _ & _ & _ & _ & _ & _ & Hc)]]];
      rewrite Hc; intros [= <-]; auto.
  - intros v0.
    destruct (createVerifier_cases r I s P)
      as [[_ Hc] | [(_ & _ & Hc) | [(_ & _ & _ & Hc)
          | (i & s0 & p & -> & -> & -> & _ & _ & _ & Hc)]]];
      rewrite Hc; intros [= <-].
    exists i, s0, p. repeat split.
  - intros sBytes w. unfold createVerifierAndSalt.
    destruct (generateRandomSalt r sBytes w) as [salt w']. reflexivity.
Qed.

(** C8, evaluated on the code — createVerifier(routines, "alice", 0n,
    "password123") raises "Salt (s) must not be null." although the
    identity is not blank and neither the password nor the salt is null:
    the guard [!s] is a falsy test, and the bigint 0n is falsy.  For every
    routines object: a non-blank identity with salt 0n gets the salt error
    whatever the password is; everything the claim lists is rejected; the
    calls rejected outside the claim's list are exactly those with a
    non-blank identity, a non-null salt and a non-null password of which
    the salt is 0n or the password is the empty string; an accepted call
    returns [computeVerifier (computeX I s P)]; and
    [createVerifierAndSalt] draws a salt with [generateRandomSalt] and
    delegates to [createVerifier] with it. *)
Theorem createVerifier_rejects_zero_salt (r : SRPRoutines)
    (I : option jsstring) (s : option bigint) (P : option jsstring) :
  (createVerifier r (Some (lit "alice")) (Some 0) (Some (lit "password123"))
   = inl SaltNull /\
   ~ claimed_rejection
       (Some (lit "alice")) (Some 0) (Some (lit "password123"))) /\
  (~ blank_identity I -> createVerifier r I (Some 0) P = inl SaltNull) /\
  (claimed_rejection I s P -> exists e, createVerifier r I s P = inl e) /\
  ((exists e, createVerifier r I s P = inl e) /\ ~ claimed_rejection I s P
   <-> ~ blank_identity I /\ s <> None /\ P <> None /\
       (s = Some 0 \/ P = Some [])) /\
  (forall v, createVerifier r I s P = inr v ->
     exists i s0 p,
       I = Some i /\ s = Some s0 /\ P = Some p /\
       v = computeVerifier r (computeX r i s0 p)) /\
  (forall (sBytes : option nat) (w : World),
     createVerifierAndSalt r I P sBytes w
     = (match createVerifier r I
                (Some (fst (generateRandomSalt r sBytes w))) P with
        | inr v => inr {| v := v; s := fst (generateRandomSalt r sBytes w) |}
        | inl e => inl e
        end,
        snd (generateRandomSalt r sBytes w))).
Proof.
  split; [|split; [|split; [|split; [|split]]]].
  - split; [reflexivity|].
    unfold claimed_rejection, blank_identity.
    intros [Hb | [Hp | Hs]]; discriminate.
  - intros Hnb.
    destruct (createVerifier_cases r I (Some 0) P)
      as [[Hb _] | [(_ & _ & Hc) | [(_ & Hns & _)
          | (i & s0 & p & _ & [= <-] & _ & _ & Hs0 & _)]]].
    + contradiction.
    + exact Hc.
    + exfalso. apply Hns. right. reflexivity.
    + exfalso. apply Hs0. reflexivity.
  - unfold claimed_rejection. intros Hclaim.
    destruct (createVerifier_cases r I s P)
      as [[_ Hc] | [(_ & _ & Hc) | [(_ & _ & _ & Hc)
          | (i & s0 & p & -> & -> & -> & Hnb & _ & _ & _)]]];
      try (rewrite Hc; eauto).
    exfalso. destruct Hclaim as [Hb | [Hp | Hs]];
      [contradiction | discriminate | discriminate].
  - unfold claimed_rejection.
    destruct (createVerifier_cases r I s P)
      as [[Hb Hc] | [(Hnb & Hs & Hc) | [(Hnb & Hns & Hp & Hc)
          | (i & s0 & p & -> & -> & -> & Hnb & Hs0 & Hp & Hc)]]];
      rewrite Hc.
    + split; [intros [_ Hn]; exfalso; apply Hn; left; exact Hb|].
      intros (Hnb & _). contradiction.
    + destruct Hs as [-> | ->].
      * split; [intros [_ Hn]; exfalso; apply Hn; right; right; reflexivity|].
        intros (_ & Hs & _). contradiction.
      * split.
        -- intros [_ Hn]. split; [exact Hnb|]. split; [discriminate|].
           split; [|left; reflexivity].
           intros ->. apply Hn. right. left. reflexivity.
        -- intros (_ & _ & HP & _). split; [eauto|].
           intros [Hb | [Hp | Hs]];
             [contradiction | contradiction | discriminate].
    + destruct Hp as [-> | ->].
      * split; [intros [_ Hn]; exfalso; apply Hn; right; left; reflexivity|].
        intros (_ & _ & HP & _). contradiction.
      * split.
        -- intros [_ Hn]. split; [exact Hnb|].
           split; [intros ->; apply Hns; left; reflexivity|].
           split; [discriminate | right; reflexivity].
        -- intros (_ & Hs & _ & _). split; [eauto|].
           intros [Hb | [Hp | Hs']];
             [contradiction | discriminate | contradiction].
    + split; [intros [[e He] _]; discriminate|].
      intros (_ & _ & _ & [[= Hz] | [= Hz]]); exfalso;
        [apply Hs0 | apply Hp]; exact Hz.
  - intros v0.
    destruct (createVerifier_cases r I s P)
      as [[_ Hc] | [(_ & _ & Hc) | [(_ & _ & _ & Hc)
          | (i & s0 & p & -> & -> & -> & _ & _ & _ & Hc)]]];
      rewrite Hc; intros [= <-].
    exists i, s0, p. repeat split.
  - intros sBytes w. unfold createVerifierAndSalt.
    destruct (generateRandomSalt r sBytes w) as [salt w']. reflexivity.
Qed.

(** ** [modPow] *)

(** C7, evaluated on the code — with exponent 0 and modulus 1 [modPow]
    returns 1, whereas 5^0 mod 1 is 0; on the rest of the domain the
    result is base^exp mod mod ([modPow_value]) and the arguments rejected
    are exactly the negative bases, negative exponents and moduli below 1
    ([modPow_rejects]). *)
Theorem modPow_exp0_mod1 (fuel : nat) :
  ModPow.modPow fuel 5 0 1 = Some (inr 1) /\ 5 ^ 0 mod 1 = 0.
Proof. destruct fuel; split; reflexivity. Qed.

(** C10 — on the domain base >= 0, exp >= 0, mod >= 1 the loop of
    [modPow] terminates: every iteration keeps the exponent non-negative
    and strictly decreases it (an odd exponent is decremented, an even one
    halved), and as soon as [2 * log2 exp + 2] iterations are allowed
    [modPow] returns a value. *)
Theorem modPow_terminates (base exp m : bigint) :
  0 <= base -> 0 <= exp -> 1 <= m ->
  (forall st : ModPow.loop_state,
     0 < ModPow.ls_pow st ->
     0 <= ModPow.ls_pow (ModPow.loop_body m st) < ModPow.ls_pow st /\
     ModPow.ls_pow (ModPow.loop_body m st)
     = (if Z.odd (ModPow.ls_pow st) then ModPow.ls_pow st - 1
        else ModPow.ls_pow st / 2)) /\
  (forall fuel : nat,
     2 * Z.log2 exp + 2 <= Z.of_nat fuel ->
     exists r : bigint, ModPow.modPow fuel base exp m = Some (inr r)).
Proof.
  intros Hb He Hm. split.
  - intros st Hpos. apply loop_body_pow. assumption.
  - intros fuel Hfuel. unfold ModPow.modPow, ModPow.ZERO, ModPow.ONE.
    destruct (Z.ltb_spec base 0); [lia|].
    destruct (Z.ltb_spec exp 0); [lia|].
    destruct (Z.ltb_spec m 1); [lia|].
    destruct (while_loop_terminates m fuel
                {| ModPow.ls_x := base; ModPow.ls_pow := exp;
                   ModPow.ls_result := 1 |}) as (st' & Hrun & _).
    + simpl. assumption.
    + simpl. pose proof (iterations_bound_le exp He). lia.
    + rewrite Hrun. eauto.
Qed.

Lemma modPow_terminates_witness :
  (forall st : ModPow.loop_state,
     0 < ModPow.ls_pow st ->
     0 <= ModPow.ls_pow (ModPow.loop_body 7 st) < ModPow.ls_pow st /\
     ModPow.ls_pow (ModPow.loop_body 7 st)
     = (if Z.odd (ModPow.ls_pow st) then ModPow.ls_pow st - 1
        else ModPow.ls_pow st / 2)) /\
  (forall fuel : nat,
     2 * Z.log2 5 + 2 <= Z.of_nat fuel ->
     exists r : bigint, ModPow.modPow fuel 3 5 7 = Some (inr r)).
Proof. apply (modPow_terminates 3 5 7); lia. Defined.

Example modPow_3_5_7 : ModPow.modPow 6 3 5 7 = Some (inr 5).
Proof. reflexivity. Qed.

Example modPow_out_of_fuel : ModPow.modPow 2 3 5 7 = None.
Proof. reflexivity. Qed.

(** ** Worked examples on the concrete platform *)

Example bigIntToArrayBuffer_examples :
  map byte_val (bigIntToArrayBuffer 0) = [0] /\
  map byte_val (bigIntToArrayBuffer 255) = [255] /\
  map byte_val (bigIntToArrayBuffer 256) = [1; 0] /\
  map byte_val (bigIntToArrayBuffer 11259375) = [171; 205; 239] /\
  arrayBufferToBigInt [x00; x01] = inr 1 /\
  arrayBufferToBigInt [] = inl BigIntSyntaxError.
Proof. repeat split; vm_compute; reflexivity. Qed.

(** The binary round trip and the tamper detection of the test suite. *)
Example binary_roundtrip :
  let data := [x01; x02; x03; x04; x05; xff; x80; x00] in
  let msg := fst (encrypt toy_crypto 12345 (DataBuffer data) toy_world) in
  length (ciphertext msg) = 24%nat /\
  decrypt toy_crypto 12345 (iv msg) (ciphertext msg) = inr data.
Proof. split; vm_compute; reflexivity. Qed.

Example tampered_ciphertext :
  let msg :=
    fst (encrypt toy_crypto 12345 (DataString (lit "Secret message"))
           toy_world) in
  let flipped :=
    u8 (Z.lxor 255 (byte_val (default x00 (ciphertext msg !! 0%nat)))) in
  decrypt toy_crypto 12345 (iv msg) (<[0%nat := flipped]> (ciphertext msg))
  = inl AuthTagMismatch.
Proof. vm_compute. reflexivity. Qed.

Example createVerifier_examples :
  createVerifier toy_routines
    (Some (lit "alice")) (Some 1234) (Some (lit "password123"))
  = inr (5 ^ ((1234 + 5 + 11) mod 22) mod 23) /\
  createVerifier toy_routines
    (Some (lit "   ")) (Some 1234) (Some (lit "password123"))
  = inl IdentityNullOrEmpty /\
  createVerifier toy_routines None (Some 1234) (Some (lit "password123"))
  = inl IdentityNullOrEmpty /\
  createVerifier toy_routines (Some (lit "alice")) None (Some (lit "x"))
  = inl SaltNull /\
  createVerifier toy_routines (Some (lit "alice")) (Some 1234) None
  = inl PasswordNull.
Proof. repeat split; vm_compute; reflexivity. Qed.

(** * Further properties *)

(** ** Hashing of several chunks *)

(** X1 — [hash] applies H to the concatenation of its chunks: the digest
    depends on the chunks only through the bytes they contain in sequence,
    not on where one chunk ends and the next begins. *)
Theorem hash_ignores_chunk_boundaries (p : SRPParameters)
    (arrays : list (list byte)) :
  hash p arrays = H p (concat arrays) /\
  hash p arrays = hash p [concat arrays] /\
  forall a b rest, hash p (a :: b :: rest) = hash p ((a ++ b) :: rest).
Proof.
  split; [apply hash_concat|]. split.
  - rewrite !hash_concat. cbn [concat]. rewrite app_nil_r. reflexivity.
  - intros a b rest. rewrite !hash_concat. cbn [concat].
    rewrite app_assoc. reflexivity.
Qed.

Lemma padStartArrayBuffer_eq (b : list byte) (n : nat) :
  padStartArrayBuffer b n = replicate (n - length b) x00 ++ b.
Proof.
  unfold padStartArrayBuffer.
  destruct (Nat.ltb_spec (length b) n) as [Hlt|Hge].
  - pose proof (set_after_prefix (replicate (n - length b) x00) b
                  (length b) (Nat.le_refl _)) as Hset.
    rewrite length_replicate in Hset.
    unfold Js.zeros in *.
    rewrite <- replicate_add in Hset.
    replace (n - length b + length b)%nat with n in Hset by lia.
    rewrite Hset, Nat.sub_diag. cbn [replicate]. apply app_nil_r.
  - replace (n - length b)%nat with 0%nat by lia. reflexivity.
Qed.

Lemma be_value_app (a b : list byte) :
  be_value (a ++ b) = be_value a * 256 ^ Z.of_nat (length b) + be_value b.
Proof.
  unfold be_value at 1. rewrite fold_left_app.
  fold (be_value a). apply be_value_acc.
Qed.

Lemma be_value_zeros (k : nat) : be_value (replicate k x00) = 0.
Proof.
  induction k as [|k IH]; [reflexivity|].
  cbn [replicate]. change (x00 :: replicate k x00) with ([x00] ++ replicate k x00).
  rewrite be_value_app, IH. reflexivity.
Qed.

(** X2 — [padStartArrayBuffer] puts [targetLength - length] zero bytes in
    front of the buffer and never truncates: the result has the larger of
    the two lengths and denotes the same number. *)
Theorem padStartArrayBuffer_pads_left (b : list byte) (targetLength : nat) :
  padStartArrayBuffer b targetLength
  = replicate (targetLength - length b) x00 ++ b /\
  length (padStartArrayBuffer b targetLength)
  = Nat.max (length b) targetLength /\
  be_value (padStartArrayBuffer b targetLength) = be_value b.
Proof.
  rewrite padStartArrayBuffer_eq. split; [reflexivity|]. split.
  - rewrite length_app, length_replicate. lia.
  - rewrite be_value_app, be_value_zeros. lia.
Qed.

(** X3 — for every list of chunks, longer than [targetLen] or not,
    [hashPadded] hashes the concatenation of the chunks, each left-padded
    with zeros to [targetLen] and none truncated; when no chunk is longer
    than [targetLen] the hashed input has exactly [targetLen] bytes per
    chunk. *)
Theorem hashPadded_fixed_width (p : SRPParameters) (targetLen : nat)
    (arrays : list (list byte)) :
  let input :=
    concat (map (fun a => replicate (targetLen - length a) x00 ++ a) arrays) in
  hashPadded p targetLen arrays = H p input /\
  (Forall (fun a => (length a <= targetLen)%nat) arrays ->
   length input = (targetLen * length arrays)%nat).
Proof.
  intros input. split.
  - unfold hashPadded. rewrite hash_concat. unfold input. do 2 f_equal.
    apply map_ext. intros a. apply padStartArrayBuffer_eq.
  - unfold input. clear input. intros Hall.
    induction Hall as [|a arrays Ha _ IH]; cbn [map concat length].
    + lia.
    + rewrite !length_app, length_replicate, IH. nia.
Qed.

Lemma hashPadded_fixed_width_witness :
  let p := new_SRPParameters toy_crypto in
  let arrays := [[x01]; []; [x02; x03]] in
  let input :=
    concat (map (fun a => replicate (3 - length a) x00 ++ a) arrays) in
  Forall (fun a => (length a <= 3)%nat) arrays /\
  hashPadded p 3 arrays = H p input /\
  length input = (3 * length arrays)%nat.
Proof.
  assert (Hall : Forall (fun a : list byte => (length a <= 3)%nat)
                   [[x01]; []; [x02; x03]])
    by (repeat constructor).
  split; [exact Hall|].
  destruct (hashPadded_fixed_width (new_SRPParameters toy_crypto) 3
              [[x01]; []; [x02; x03]]) as [Hhash Hlen].
  split; [exact Hhash | exact (Hlen Hall)].
Defined.

(** ** Decoding and re-encoding numbers *)

(** X4 — [arrayBufferToBigInt] raises a [SyntaxError] on the empty buffer
    and on every other buffer returns the number it denotes in big-endian
    order, which lies below 256^length; leading zero bytes do not change
    the result. *)
Theorem arrayBufferToBigInt_big_endian :
  arrayBufferToBigInt [] = inl BigIntSyntaxError /\
  (forall (b : byte) (bs : list byte),
     arrayBufferToBigInt (b :: bs) = inr (be_value (b :: bs)) /\
     0 <= be_value (b :: bs) < 256 ^ Z.of_nat (length (b :: bs))) /\
  (forall (k : nat) (b : byte) (bs : list byte),
     arrayBufferToBigInt (replicate k x00 ++ b :: bs)
     = arrayBufferToBigInt (b :: bs)).
Proof.
  split; [reflexivity|]. split.
  - intros b bs. split; [apply arrayBufferToBigInt_eq | apply be_value_bounds].
  - intros k b bs. rewrite !arrayBufferToBigInt_eq.
    rewrite be_value_app, be_value_zeros.
    destruct k; cbn [replicate app]; f_equal; lia.
Qed.

(** X5 — padding a non-empty buffer does not change the number read from
    it. *)
Theorem padStart_then_decode (b : list byte) (targetLength : nat) :
  b <> [] ->
  arrayBufferToBigInt (padStartArrayBuffer b targetLength)
  = arrayBufferToBigInt b.
Proof.
  intros Hne. rewrite padStartArrayBuffer_eq, !arrayBufferToBigInt_eq.
  rewrite be_value_app, be_value_zeros.
  destruct b as [|x b]; [congruence|].
  destruct (targetLength - length (x :: b))%nat; cbn [replicate app];
    f_equal; lia.
Qed.

Lemma padStart_then_decode_witness :
  arrayBufferToBigInt (padStartArrayBuffer [x01; x00] 5)
  = arrayBufferToBigInt [x01; x00].
Proof. apply (padStart_then_decode [x01; x00] 5). discriminate. Defined.

Lemma be_value_cons (b : byte) (bs : list byte) :
  be_value (b :: bs) = byte_val b * 256 ^ Z.of_nat (length bs) + be_value bs.
Proof.
  change (b :: bs) with ([b] ++ bs). rewrite be_value_app.
  unfold be_value at 1. simpl. lia.
Qed.

(** Two byte strings of the same length denoting the same number are
    equal. *)
Lemma be_value_inj (a : list byte) :
  forall b : list byte,
    length a = length b -> be_value a = be_value b -> a = b.
Proof.
  induction a as [|x a IH]; intros [|y b] Hlen Hval; try discriminate.
  - reflexivity.
  - injection Hlen as Hlen.
    rewrite !be_value_cons, <- Hlen in Hval.
    pose proof (be_value_bounds a) as Ha.
    pose proof (be_value_bounds b) as Hb. rewrite <- Hlen in Hb.
    pose proof (byte_val_range x). pose proof (byte_val_range y).
    assert (Hp : 0 < 256 ^ Z.of_nat (length a)) by (apply Z.pow_pos_nonneg; lia).
    assert (Hxy : byte_val x = byte_val y) by nia.
    rewrite Hxy in Hval.
    f_equal; [apply byte_val_inj; assumption | apply IH; [assumption | lia]].
Qed.

Lemma canonical_lower_bound (bs : list byte) :
  canonical_bytes bs ->
  (length bs = 1%nat) \/ 256 ^ Z.of_nat (length bs - 1) <= be_value bs.
Proof.
  destruct bs as [|b [|b' bs]]; cbn [canonical_bytes]; intros Hc.
  - contradiction.
  - left. reflexivity.
  - right. rewrite be_value_cons.
    replace (length (b :: b' :: bs) - 1)%nat with (length (b' :: bs))
      by (simpl; lia).
    pose proof (be_value_bounds (b' :: bs)).
    pose proof (byte_val_range b).
    assert (0 < 256 ^ Z.of_nat (length (b' :: bs)))
      by (apply Z.pow_pos_nonneg; lia).
    nia.
Qed.

(** X6 — on the encodings without superfluous leading zero (the single
    byte 0, or a first byte different from 0) [bigIntToArrayBuffer] undoes
    [arrayBufferToBigInt]. *)
Theorem encode_decoded_canonical (bs : list byte) :
  canonical_bytes bs ->
  arrayBufferToBigInt bs = inr (be_value bs) /\
  bigIntToArrayBuffer (be_value bs) = bs.
Proof.
  intros Hc.
  assert (Hne : bs <> []) by (destruct bs; [contradiction | discriminate]).
  split; [rewrite arrayBufferToBigInt_eq; destruct bs; [congruence|reflexivity]|].
  pose proof (be_value_bounds bs) as Hb.
  assert (Hn : 0 <= be_value bs) by lia.
  apply be_value_inj; [|apply bigIntToArrayBuffer_value; assumption].
  pose proof (bigIntToArrayBuffer_minimal (be_value bs) bs Hn Hne eq_refl)
    as Hle.
  pose proof (bigIntToArrayBuffer_nonempty (be_value bs) Hn) as Hne'.
  assert (H1 : (1 <= length (bigIntToArrayBuffer (be_value bs)))%nat).
  { destruct (bigIntToArrayBuffer (be_value bs)); simpl; [congruence | lia]. }
  destruct (canonical_lower_bound bs Hc) as [Hone | Hlow]; [lia|].
  pose proof (be_value_bounds (bigIntToArrayBuffer (be_value bs))) as Hup.
  rewrite bigIntToArrayBuffer_value in Hup by assumption.
  assert (Hpow : 256 ^ Z.of_nat (length bs - 1)
                 < 256 ^ Z.of_nat (length (bigIntToArrayBuffer (be_value bs))))
    by lia.
  apply Z.pow_lt_mono_r_iff in Hpow; lia.
Qed.

Lemma encode_decoded_canonical_witness :
  arrayBufferToBigInt [x01; x00; xff] = inr (be_value [x01; x00; xff]) /\
  bigIntToArrayBuffer (be_value [x01; x00; xff]) = [x01; x00; xff].
Proof.
  apply (encode_decoded_canonical [x01; x00; xff]).
  cbn [canonical_bytes]. vm_compute. discriminate.
Defined.

(** Shape of the encoding of a non-negative number. *)
Lemma encoding_shape (n : bigint) :
  0 <= n ->
  canonical_bytes (bigIntToArrayBuffer n) /\
  (n = 0 -> bigIntToArrayBuffer n = [x00]) /\
  (0 < n ->
     256 ^ Z.of_nat (length (bigIntToArrayBuffer n) - 1) <= n
     < 256 ^ Z.of_nat (length (bigIntToArrayBuffer n))).
Proof.
  intros Hn.
  pose proof (bigIntToArrayBuffer_value n Hn) as Hval.
  pose proof (bigIntToArrayBuffer_nonempty n Hn) as Hne.
  assert (Hcan : canonical_bytes (bigIntToArrayBuffer n)).
  { destruct (bigIntToArrayBuffer n) as [|b [|b' bs]] eqn:Henc;
      cbn [canonical_bytes]; [congruence | exact I |].
    intros Hb0.
    (* dropping a zero first byte would give a shorter encoding *)
    assert (Hshort : be_value (b' :: bs) = n).
    { rewrite <- Hval, (be_value_cons b), Hb0. lia. }
    pose proof (bigIntToArrayBuffer_minimal n (b' :: bs) Hn
                  ltac:(discriminate) Hshort) as Hle.
    rewrite Henc in Hle. simpl in Hle. lia. }
  split; [exact Hcan|]. split.
  - intros ->. reflexivity.
  - intros Hpos.
    pose proof (be_value_bounds (bigIntToArrayBuffer n)) as Hb.
    rewrite Hval in Hb. split; [|lia].
    destruct (canonical_lower_bound _ Hcan) as [Hone | Hlow].
    + rewrite Hone. simpl. lia.
    + rewrite Hval in Hlow. exact Hlow.
Qed.

(** X7 — the encoding of [n >= 0] has no superfluous leading zero, and for
    [n > 0] its length is the number of base-256 digits of [n]. *)
Theorem bigIntToArrayBuffer_byte_length (n : bigint) :
  0 <= n ->
  canonical_bytes (bigIntToArrayBuffer n) /\
  (n = 0 -> bigIntToArrayBuffer n = [x00]) /\
  (0 < n ->
     256 ^ Z.of_nat (length (bigIntToArrayBuffer n) - 1) <= n
     < 256 ^ Z.of_nat (length (bigIntToArrayBuffer n))).
Proof. apply encoding_shape. Qed.

Lemma bigIntToArrayBuffer_byte_length_witness :
  canonical_bytes (bigIntToArrayBuffer 65536) /\
  (65536 = 0 -> bigIntToArrayBuffer 65536 = [x00]) /\
  (0 < 65536 ->
     256 ^ Z.of_nat (length (bigIntToArrayBuffer 65536) - 1) <= 65536
     < 256 ^ Z.of_nat (length (bigIntToArrayBuffer 65536))).
Proof. apply (bigIntToArrayBuffer_byte_length 65536). lia. Defined.

Lemma bigIntToArrayBuffer_length_any (n : bigint) :
  length (bigIntToArrayBuffer n) = ((length (Js.toString16 n) + 1) / 2)%nat.
Proof.
  unfold bigIntToArrayBuffer.
  destruct (negb (length (Js.toString16 n) mod 2 =? 0)%nat).
  - rewrite for_loop_store_length, store_length.
    unfold Js.zeros. apply length_replicate.
  - rewrite for_loop_store_length. unfold Js.zeros. apply length_replicate.
Qed.

(** X8 — a negative bigint is not rejected by [bigIntToArrayBuffer]; it is
    turned into a non-empty buffer that reads back as a non-negative
    number, so the sign is lost and the round trip fails. *)
Theorem negative_bigint_loses_sign (n : bigint) :
  n < 0 ->
  exists v : bigint,
    arrayBufferToBigInt (bigIntToArrayBuffer n) = inr v /\ 0 <= v /\ v <> n.
Proof.
  intros Hneg.
  assert (Hlen : (1 <= length (bigIntToArrayBuffer n))%nat).
  { rewrite bigIntToArrayBuffer_length_any. unfold Js.toString16.
    destruct (Z.ltb_spec n 0); [|lia]. cbn [length].
    pose proof (Nat.div_mod_eq
                  (S (length (map Js.hex_digit_char (Js.hex_digits (- n)))) + 1) 2).
    pose proof (Nat.mod_upper_bound
                  (S (length (map Js.hex_digit_char (Js.hex_digits (- n)))) + 1) 2).
    lia. }
  exists (be_value (bigIntToArrayBuffer n)).
  pose proof (be_value_bounds (bigIntToArrayBuffer n)).
  rewrite arrayBufferToBigInt_eq.
  destruct (bigIntToArrayBuffer n); [simpl in Hlen; lia|].
  split; [reflexivity|]. lia.
Qed.

Lemma negative_bigint_loses_sign_witness :
  exists v : bigint,
    arrayBufferToBigInt (bigIntToArrayBuffer (-255)) = inr v /\
    0 <= v /\ v <> -255.
Proof. apply (negative_bigint_loses_sign (-255)). lia. Defined.

(** X26 — padding the encoding of [n >= 0] to any length and reading it
    back gives [n]; when [n] fits in [k >= 1] bytes the padded encoding has
    exactly [k] bytes. *)
Theorem padded_encoding_roundtrip (n : bigint) (k : nat) :
  0 <= n ->
  arrayBufferToBigInt (padStartArrayBuffer (bigIntToArrayBuffer n) k) = inr n /\
  (n < 256 ^ Z.of_nat k -> (1 <= k)%nat ->
     length (padStartArrayBuffer (bigIntToArrayBuffer n) k) = k).
Proof.
  intros Hn.
  pose proof (bigIntToArrayBuffer_nonempty n Hn) as Hne.
  pose proof (bigIntToArrayBuffer_value n Hn) as Hval.
  split.
  - rewrite padStartArrayBuffer_eq, arrayBufferToBigInt_eq.
    rewrite be_value_app, be_value_zeros, Hval.
    destruct (bigIntToArrayBuffer n) as [|b bs]; [congruence|].
    destruct (k - length (b :: bs))%nat; cbn [replicate app]; f_equal; lia.
  - intros Hfit Hk.
    rewrite padStartArrayBuffer_eq, length_app, length_replicate.
    destruct (encoding_shape n Hn) as (_ & Hzero & Hpos).
    destruct (Z.eq_dec n 0) as [Hz|Hnz].
    + rewrite (Hzero Hz). simpl. lia.
    + destruct (Hpos ltac:(lia)) as [Hlow _].
      assert (Hpow : 256 ^ Z.of_nat (length (bigIntToArrayBuffer n) - 1)
                     < 256 ^ Z.of_nat k) by lia.
      apply Z.pow_lt_mono_r_iff in Hpow; lia.
Qed.

Lemma padded_encoding_roundtrip_witness :
  arrayBufferToBigInt (padStartArrayBuffer (bigIntToArrayBuffer 258) 4)
  = inr 258 /\
  (258 < 256 ^ Z.of_nat 4 -> (1 <= 4)%nat ->
     length (padStartArrayBuffer (bigIntToArrayBuffer 258) 4) = 4%nat).
Proof. apply (padded_encoding_roundtrip 258 4). lia. Defined.

(** ** Random strings and numbers *)







(** ** Digest width *)

(** X11 — [hashBitCount] is eight times the digest length of the
    configured hash: 160, 256, 384 and 512 for the four supported
    selections. *)
Theorem hashBitCount_of_supported (c : CompatibleCrypto) :
  digest_lengths c ->
  (forall p, hashBitCount p = (8 * length (H p [x01]))%nat) /\
  hashBitCount {| H := SHA1 c |} = 160%nat /\
  hashBitCount {| H := SHA256 c |} = 256%nat /\
  hashBitCount {| H := SHA384 c |} = 384%nat /\
  hashBitCount {| H := SHA512 c |} = 512%nat /\
  hashBitCount (new_SRPParameters c) = 512%nat.
Proof.
  intros (H1 & H256 & H384 & H512).
  assert (Hgen : forall p, hashBitCount p = (8 * length (H p [x01]))%nat).
  { intros p. unfold hashBitCount. rewrite hash_concat.
    change (concat [bigIntToArrayBuffer 1]) with [x01]. lia. }
  split; [exact Hgen|].
  rewrite !Hgen. unfold new_SRPParameters. cbn [H].
  rewrite H1, H256, H384, H512. repeat split; reflexivity.
Qed.

Lemma hashBitCount_of_supported_witness :
  (forall p, hashBitCount p = (8 * length (H p [x01]))%nat) /\
  hashBitCount {| H := SHA1 toy_crypto |} = 160%nat /\
  hashBitCount {| H := SHA256 toy_crypto |} = 256%nat /\
  hashBitCount {| H := SHA384 toy_crypto |} = 384%nat /\
  hashBitCount {| H := SHA512 toy_crypto |} = 512%nat /\
  hashBitCount (new_SRPParameters toy_crypto) = 512%nat.
Proof.
  apply (hashBitCount_of_supported toy_crypto). exact toy_digest_lengths.
Defined.

(** ** [modPow]: value and errors *)

(** X12 — on the domain base >= 0, exp >= 0, mod >= 1, away from the
    corner exp = 0 with mod = 1, [modPow] returns base^exp mod mod, a value
    in [0, mod), as soon as [2 * log2 exp + 2] iterations are allowed. *)
Theorem modPow_computes_power (fuel : nat) (base exp m : bigint) :
  0 <= base -> 0 <= exp -> 1 <= m -> (2 <= m \/ 1 <= exp) ->
  2 * Z.log2 exp + 2 <= Z.of_nat fuel ->
  ModPow.modPow fuel base exp m = Some (inr (base ^ exp mod m)) /\
  0 <= base ^ exp mod m < m.
Proof.
  intros Hb He Hm Hnd Hfuel.
  split; [|apply Z.mod_pos_bound; lia].
  destruct (ModPow.modPow fuel base exp m) as [[e|r]|] eqn:Hrun.
  - exfalso.
    assert (Hrej : base < 0 \/ exp < 0 \/ m < 1)
      by (apply (proj1 (modPow_rejects fuel base exp m)); eauto).
    lia.
  - rewrite (modPow_value fuel base exp m r Hb He Hm Hnd Hrun). reflexivity.
  - exfalso. revert Hrun. unfold ModPow.modPow, ModPow.ZERO, ModPow.ONE.
    destruct (Z.ltb_spec base 0); [lia|].
    destruct (Z.ltb_spec exp 0); [lia|].
    destruct (Z.ltb_spec m 1); [lia|].
    destruct (while_loop_terminates m fuel
                {| ModPow.ls_x := base; ModPow.ls_pow := exp;
                   ModPow.ls_result := 1 |}) as (st' & Hw & _).
    + simpl. assumption.
    + simpl. pose proof (iterations_bound_le exp He). lia.
    + rewrite Hw. discriminate.
Qed.

Lemma modPow_computes_power_witness :
  ModPow.modPow 8 3 10 7 = Some (inr (3 ^ 10 mod 7)) /\
  0 <= 3 ^ 10 mod 7 < 7.
Proof.
  apply (modPow_computes_power 8 3 10 7); try lia.
  vm_compute. discriminate.
Defined.

(** X13 — the argument checks of [modPow] run in the order base, power,
    modulo, before any iteration: the first one that fails decides the
    error, and an error is raised exactly when base < 0, exp < 0 or
    mod < 1. *)
Theorem modPow_argument_errors (fuel : nat) (base exp m : bigint) :
  (base < 0 ->
     ModPow.modPow fuel base exp m = Some (inl (InvalidBase base))) /\
  (0 <= base -> exp < 0 ->
     ModPow.modPow fuel base exp m = Some (inl (InvalidPower exp))) /\
  (0 <= base -> 0 <= exp -> m < 1 ->
     ModPow.modPow fuel base exp m = Some (inl (InvalidModulo m))) /\
  ((exists e, ModPow.modPow fuel base exp m = Some (inl e))
   <-> base < 0 \/ exp < 0 \/ m < 1).
Proof.
  unfold ModPow.modPow, ModPow.ZERO, ModPow.ONE.
  split; [|split; [|split]].
  - intros Hb. destruct (Z.ltb_spec base 0); [reflexivity | lia].
  - intros Hb He. destruct (Z.ltb_spec base 0); [lia|].
    destruct (Z.ltb_spec exp 0); [reflexivity | lia].
  - intros Hb He Hm. destruct (Z.ltb_spec base 0); [lia|].
    destruct (Z.ltb_spec exp 0); [lia|].
    destruct (Z.ltb_spec m 1); [reflexivity | lia].
  - apply modPow_rejects.
Qed.

(** ** [createVerifier]: which error, and the zero salt *)

(** X14 — the checks of [createVerifier] run in the order identity, salt,
    password: a blank identity gives the identity error whatever the other
    arguments are, and the password is looked at only when identity and
    salt are accepted. *)
Theorem createVerifier_error_order (r : SRPRoutines) (I : option jsstring)
    (s : option bigint) (P : option jsstring) :
  (blank_identity I -> createVerifier r I s P = inl IdentityNullOrEmpty) /\
  (~ blank_identity I -> (s = None \/ s = Some 0) ->
     createVerifier r I s P = inl SaltNull) /\
  (~ blank_identity I -> ~ (s = None \/ s = Some 0) ->
     (P = None \/ P = Some []) ->
     createVerifier r I s P = inl PasswordNull).
Proof.
  destruct (createVerifier_cases r I s P)
    as [[Hb Hc] | [(Hnb & Hs & Hc) | [(Hnb & Hns & Hp & Hc)
        | (i & s0 & p & -> & -> & -> & Hnb & Hs0 & Hp & Hc)]]];
    (split; [|split]); intros; try exact Hc; try contradiction;
    try tauto; exfalso; intuition congruence.
Qed.

(** X15 — [createVerifierAndSalt] with a usable identity and password
    returns the salt it drew together with
    [computeVerifier (computeX I salt P)], except when the salt drawn is 0:
    then it fails with the salt error.  The world it leaves is the one
    [generateRandomSalt] leaves. *)
Theorem createVerifierAndSalt_outcome (r : SRPRoutines) (i p : jsstring)
    (sBytes : option nat) (w : World) :
  Js.trim i <> [] -> p <> [] ->
  let salt := fst (generateRandomSalt r sBytes w) in
  let out := createVerifierAndSalt r (Some i) (Some p) sBytes w in
  (salt <> 0 ->
     fst out = inr {| v := computeVerifier r (computeX r i salt p);
                      s := salt |}) /\
  (salt = 0 -> fst out = inl SaltNull) /\
  snd out = snd (generateRandomSalt r sBytes w).
Proof.
  intros Hi Hp salt out. unfold out, salt, createVerifierAndSalt.
  destruct (generateRandomSalt r sBytes w) as [s0 w']. cbn [fst snd].
  assert (Hnb : ~ blank_identity (Some i)) by exact Hi.
  destruct (createVerifier_cases r (Some i) (Some s0) (Some p))
    as [[Hb _] | [(_ & Hs & Hc) | [(_ & _ & Hpp & _)
        | (i' & s' & p' & Ei & Es & Ep & _ & Hs0 & _ & Hc)]]].
  - contradiction.
  - rewrite Hc. destruct Hs as [Hs|Hs]; [discriminate|].
    injection Hs as ->.
    split; [intros Hn; congruence | split; [intros _; reflexivity | reflexivity]].
  - destruct Hpp as [Hpp|Hpp]; [discriminate | congruence].
  - injection Ei as <-. injection Es as <-. injection Ep as <-.
    rewrite Hc.
    split; [intros _; reflexivity | split; [intros Hz; congruence | reflexivity]].
Qed.

Lemma createVerifierAndSalt_outcome_witness :
  let r := toy_routines in
  let i := lit "alice" in
  let p := lit "password123" in
  let salt := fst (generateRandomSalt r None toy_world) in
  let out := createVerifierAndSalt r (Some i) (Some p) None toy_world in
  (salt <> 0 ->
     fst out = inr {| v := computeVerifier r (computeX r i salt p);
                      s := salt |}) /\
  (salt = 0 -> fst out = inl SaltNull) /\
  snd out = snd (generateRandomSalt r None toy_world).
Proof.
  apply (createVerifierAndSalt_outcome toy_routines
           (lit "alice") (lit "password123") None toy_world);
    vm_compute; discriminate.
Defined.

(** ** The stream cipher *)

(** X16 — [xorCrypt] keeps the length of its input and is its own inverse
    for every key and IV, whatever their lengths. *)
Theorem xorCrypt_self_inverse (data key iv : list byte) :
  length (xorCrypt data key iv) = length data /\
  xorCrypt (xorCrypt data key iv) key iv = data.
Proof.
  split; [apply xorCrypt_length | apply xorCrypt_involutive].
Qed.

(** X17 — with an empty key and an empty IV every key-stream byte is
    [undefined ^ undefined = 0]: [xorCrypt] returns the data unchanged. *)
Theorem xorCrypt_without_key (data : list byte) :
  xorCrypt data [] [] = data.
Proof.
  rewrite xorCrypt_imap. apply list_eq. intros i.
  rewrite list_lookup_imap. destruct (data !! i) as [d|]; [|reflexivity].
  cbn [fmap option_fmap option_map]. f_equal.
  change (keystream_byte [] [] i) with 0.
  rewrite Z.lxor_0_r. apply u8_byte_val.
Qed.

Lemma index_rem_period (i k len : nat) :
  Js.index_rem (i + k * len) len = Js.index_rem i len.
Proof.
  unfold Js.index_rem. destruct len as [|len]; [reflexivity|].
  rewrite Nat.Div0.mod_add. reflexivity.
Qed.

Lemma keystream_byte_period (key iv : list byte) (i a b : nat) :
  (a * length key = b * length iv)%nat ->
  keystream_byte key iv (i + a * length key) = keystream_byte key iv i.
Proof.
  intros Hp. unfold keystream_byte.
  rewrite index_rem_period, Hp, index_rem_period. reflexivity.
Qed.

Lemma xorCrypt_lookup (data key iv : list byte) (i : nat) (d : byte) :
  data !! i = Some d ->
  exists x : byte,
    xorCrypt data key iv !! i = Some x /\
    byte_val x = Z.lxor (byte_val d) (keystream_byte key iv i).
Proof.
  intros Hd. rewrite xorCrypt_imap, list_lookup_imap, Hd.
  eexists. split; [reflexivity|].
  rewrite byte_val_u8. apply Z.mod_small, lxor_byte_range;
    [apply byte_val_range | apply keystream_byte_range].
Qed.

Lemma lxor_cancel_middle (a b k : Z) :
  Z.lxor (Z.lxor a k) (Z.lxor b k) = Z.lxor a b.
Proof.
  rewrite (Z.lxor_comm b k), Z.lxor_assoc, <- (Z.lxor_assoc k k b).
  rewrite Z.lxor_nilpotent, Z.lxor_0_l. reflexivity.
Qed.

(** X18 — two plaintexts encrypted with the same key and the same IV:
    the XOR of the two ciphertexts is, byte for byte, the XOR of the two
    plaintexts. *)
Theorem xorCrypt_same_keystream (d1 d2 key iv : list byte) (i : nat)
    (a b : byte) :
  d1 !! i = Some a -> d2 !! i = Some b ->
  exists x y : byte,
    xorCrypt d1 key iv !! i = Some x /\
    xorCrypt d2 key iv !! i = Some y /\
    Z.lxor (byte_val x) (byte_val y) = Z.lxor (byte_val a) (byte_val b).
Proof.
  intros Ha Hb.
  destruct (xorCrypt_lookup d1 key iv i a Ha) as (x & Hx & Hxv).
  destruct (xorCrypt_lookup d2 key iv i b Hb) as (y & Hy & Hyv).
  exists x, y. repeat split; try assumption.
  rewrite Hxv, Hyv. apply lxor_cancel_middle.
Qed.

Lemma xorCrypt_same_keystream_witness :
  exists x y : byte,
    xorCrypt [x41; x42] [x10; x20; x30] [x07] !! 1%nat = Some x /\
    xorCrypt [x61; x7a] [x10; x20; x30] [x07] !! 1%nat = Some y /\
    Z.lxor (byte_val x) (byte_val y) = Z.lxor (byte_val x42) (byte_val x7a).
Proof.
  apply (xorCrypt_same_keystream [x41; x42] [x61; x7a] [x10; x20; x30] [x07]
           1 x42 x7a); reflexivity.
Defined.

Lemma encrypt_ciphertext_lookup (c : CompatibleCrypto) (S : bigint)
    (data : Data) (w : World) (i : nat) :
  (i < length (plaintext_bytes data))%nat ->
  ciphertext (fst (encrypt c S data w)) !! i
  = xorCrypt (plaintext_bytes data) (encKey (deriveKeys c S))
      (iv (fst (encrypt c S data w))) !! i.
Proof.
  intros Hi. unfold encrypt. destruct (deriveKeys c S) as [ek mk].
  destruct (generateIV w) as [ivb w']. cbn [fst iv ciphertext encKey].
  rewrite set_two_parts.
  apply lookup_app_l. rewrite xorCrypt_length. assumption.
Qed.

(** X19 — the key stream of [encrypt] repeats every 64 bytes (the length
    of the SHA-512 key, a multiple of the 16 bytes of the IV): within one
    message the XOR of two ciphertext bytes 64 positions apart is the XOR
    of the two plaintext bytes. *)
Theorem encrypt_keystream_period (c : CompatibleCrypto) (S : bigint)
    (data : Data) (w : World) (i : nat) (a b : byte) :
  digest_lengths c ->
  plaintext_bytes data !! i = Some a ->
  plaintext_bytes data !! (i + 64)%nat = Some b ->
  exists x y : byte,
    ciphertext (fst (encrypt c S data w)) !! i = Some x /\
    ciphertext (fst (encrypt c S data w)) !! (i + 64)%nat = Some y /\
    Z.lxor (byte_val x) (byte_val y) = Z.lxor (byte_val a) (byte_val b).
Proof.
  intros Hlen Ha Hb.
  pose proof (lookup_lt_Some _ _ _ Ha) as Hia.
  pose proof (lookup_lt_Some _ _ _ Hb) as Hib.
  rewrite !encrypt_ciphertext_lookup by assumption.
  assert (Hk : length (encKey (deriveKeys c S)) = 64%nat).
  { rewrite deriveKeys_eq. cbn [encKey].
    destruct Hlen as (_ & _ & _ & H512). apply H512. }
  assert (Hv : length (iv (fst (encrypt c S data w))) = 16%nat)
    by (rewrite encrypt_iv; apply generateIV_length).
  set (key := encKey (deriveKeys c S)) in *.
  set (ivb := iv (fst (encrypt c S data w))) in *.
  clearbody key ivb.
  destruct (xorCrypt_lookup _ key ivb i a Ha) as (x & Hx & Hxv).
  destruct (xorCrypt_lookup _ key ivb (i + 64) b Hb) as (y & Hy & Hyv).
  exists x, y. repeat split; try assumption.
  rewrite Hxv, Hyv.
  replace (i + 64)%nat with (i + 1 * length key)%nat by lia.
  rewrite (keystream_byte_period key ivb i 1 4) by lia.
  apply lxor_cancel_middle.
Qed.

Lemma encrypt_keystream_period_witness :
  exists x y : byte,
    ciphertext (fst (encrypt toy_crypto 7 (DataBuffer (replicate 65 x41))
                       toy_world)) !! 0%nat = Some x /\
    ciphertext (fst (encrypt toy_crypto 7 (DataBuffer (replicate 65 x41))
                       toy_world)) !! (0 + 64)%nat = Some y /\
    Z.lxor (byte_val x) (byte_val y) = Z.lxor (byte_val x41) (byte_val x41).
Proof.
  apply (encrypt_keystream_period toy_crypto 7
           (DataBuffer (replicate 65 x41)) toy_world 0 x41 x41);
    [exact toy_digest_lengths | reflexivity | reflexivity].
Defined.

(** ** The authentication tag *)

(** X20 — the tag is a hash of the plain concatenation
    macKey || iv || ciphertext, so it does not fix where the IV ends:
    bytes moved from the front of the ciphertext to the end of the IV leave
    the tag unchanged, and [decrypt] accepts the one input exactly when it
    accepts the other. *)
Theorem decrypt_iv_boundary (c : CompatibleCrypto) (S : bigint)
    (iv x rest : list byte) :
  digest_lengths c -> (16 <= length rest)%nat ->
  (forall macKey ct,
     computeMAC c macKey (iv ++ x) ct = computeMAC c macKey iv (x ++ ct)) /\
  ((exists p, decrypt c S iv (x ++ rest) = inr p)
   <-> (exists p', decrypt c S (iv ++ x) rest = inr p')).
Proof.
  intros Hlen Hrest. split.
  - intros mk ct. rewrite !computeMAC_eq, <- !app_assoc. reflexivity.
  - assert (Hpre : take (length (x ++ rest) - 16) (x ++ rest)
                   = x ++ take (length rest - 16) rest).
    { rewrite length_app, take_app_ge by lia. f_equal. f_equal. lia. }
    assert (Hsuf : drop (length (x ++ rest) - 16) (x ++ rest)
                   = drop (length rest - 16) rest).
    { rewrite length_app, drop_app_ge by lia. f_equal. lia. }
    destruct (decrypt_cases c S iv (x ++ rest) Hlen)
      as [[Hs _] | [(_ & Hne & Hd) | (_ & Heq & Hd)]];
      [rewrite length_app in Hs; lia | |];
      destruct (decrypt_cases c S (iv ++ x) rest Hlen)
        as [[Hs' _] | [(_ & Hne' & Hd') | (_ & Heq' & Hd')]];
      try lia; rewrite Hd, Hd';
      rewrite Hpre, Hsuf in *; rewrite <- !app_assoc in *.
    + split; intros [q Hq]; discriminate.
    + contradiction.
    + contradiction.
    + split; intros _; eauto.
Qed.

Lemma decrypt_iv_boundary_witness :
  (forall macKey ct,
     computeMAC toy_crypto macKey ([x01] ++ [x02]) ct
     = computeMAC toy_crypto macKey [x01] ([x02] ++ ct)) /\
  ((exists p, decrypt toy_crypto 7 [x01] ([x02] ++ replicate 16 x00) = inr p)
   <-> (exists p',
          decrypt toy_crypto 7 ([x01] ++ [x02]) (replicate 16 x00) = inr p')).
Proof.
  apply (decrypt_iv_boundary toy_crypto 7 [x01] [x02] (replicate 16 x00));
    [exact toy_digest_lengths | cbn [replicate length]; lia].
Defined.

(** ** Successive messages *)

(** X21 — two calls of [encrypt] in a row take their IVs from consecutive
    outcomes of [Math.random]: the first from the next 16, the second from
    the 16 after them, whatever the keys and the plaintexts are. *)
Theorem encrypt_twice_ivs (c : CompatibleCrypto) (S1 S2 : bigint)
    (d1 d2 : Data) (w : World) :
  let draws k :=
    map (fun i => u8 (Random.floor_times_256
                        (math_random_seq w (i + (k + math_random_pos w))%nat)))
        (seq 0 16) in
  let first := encrypt c S1 d1 w in
  let second := encrypt c S2 d2 (snd first) in
  iv (fst first) = draws 0%nat /\
  iv (fst second) = draws 16%nat /\
  math_random_pos (snd second) = (32 + math_random_pos w)%nat.
Proof.
  intros draws first second. unfold second, first, draws.
  rewrite !encrypt_iv, !encrypt_world.
  split; [rewrite generateIV_eq; reflexivity|].
  rewrite (generateIV_eq w). cbn [snd].
  rewrite generateIV_eq. cbn [fst snd math_random_seq math_random_pos].
  split; reflexivity.
Qed.

(** ** UTF-8: bit arithmetic *)

Lemma land_high_low (m k a : Z) :
  0 <= k -> 0 <= a < 2 ^ k -> Z.land (m * 2 ^ k) a = 0.
Proof.
  intros Hk Ha. apply Z.bits_inj'. intros n Hn.
  rewrite Z.land_spec, Z.bits_0.
  destruct (Z.ltb_spec n k) as [Hlt|Hge].
  - rewrite Z.mul_pow2_bits_low by lia. reflexivity.
  - destruct (Z.eq_dec a 0) as [->|Hnz].
    + rewrite Z.bits_0. apply andb_false_r.
    + rewrite (Z.bits_above_log2 a n); [apply andb_false_r | lia |].
      assert (Z.log2 a < k) by (apply Z.log2_lt_pow2; lia). lia.
Qed.

Lemma lor_high_low (m k a : Z) :
  0 <= k -> 0 <= a < 2 ^ k -> Z.lor (m * 2 ^ k) a = m * 2 ^ k + a.
Proof.
  intros Hk Ha. pose proof (Z.add_lor_land (m * 2 ^ k) a) as Hadd.
  rewrite land_high_low in Hadd by assumption. lia.
Qed.

Lemma land_low_mask (x k : Z) : 0 <= k -> Z.land x (2 ^ k - 1) = x mod 2 ^ k.
Proof.
  intros Hk. rewrite <- Z.land_ones by assumption.
  rewrite Z.ones_equiv. reflexivity.
Qed.

Lemma land_63 (x : Z) : Z.land x 63 = x mod 64.
Proof. apply (land_low_mask x 6). lia. Qed.

Lemma land_31 (x : Z) : Z.land x 31 = x mod 32.
Proof. apply (land_low_mask x 5). lia. Qed.

Lemma land_15 (x : Z) : Z.land x 15 = x mod 16.
Proof. apply (land_low_mask x 4). lia. Qed.

Lemma land_7 (x : Z) : Z.land x 7 = x mod 8.
Proof. apply (land_low_mask x 3). lia. Qed.

Lemma land_1023 (x : Z) : Z.land x 1023 = x mod 1024.
Proof. apply (land_low_mask x 10). lia. Qed.

Lemma shiftr_6 (x : Z) : Z.shiftr x 6 = x / 64.
Proof. apply (Z.shiftr_div_pow2 x 6). lia. Qed.

Lemma shiftr_10 (x : Z) : Z.shiftr x 10 = x / 1024.
Proof. apply (Z.shiftr_div_pow2 x 10). lia. Qed.

Lemma shiftr_12 (x : Z) : Z.shiftr x 12 = x / 4096.
Proof. apply (Z.shiftr_div_pow2 x 12). lia. Qed.

Lemma shiftr_18 (x : Z) : Z.shiftr x 18 = x / 262144.
Proof. apply (Z.shiftr_div_pow2 x 18). lia. Qed.

(** A marker in the high bits over a payload in the low bits. *)
Lemma marked_byte (m k a : Z) :
  0 <= k -> 0 <= a < 2 ^ k -> 0 <= m * 2 ^ k + a < 256 ->
  byte_val (u8 (Z.lor (m * 2 ^ k) a)) = m * 2 ^ k + a.
Proof.
  intros Hk Ha Hr. rewrite lor_high_low by assumption.
  rewrite byte_val_u8. apply Z.mod_small. assumption.
Qed.

Lemma continuation_byte (a : Z) :
  0 <= a < 64 -> byte_val (u8 (Z.lor 128 a)) = 128 + a.
Proof. intros Ha. apply (marked_byte 2 6 a); lia. Qed.

Lemma push_value (cp : Z) (b : byte) :
  128 <= byte_val b <= 191 ->
  Utf8.push cp b = cp * 64 + (byte_val b - 128).
Proof.
  intros Hb. unfold Utf8.push.
  rewrite Z.shiftl_mul_pow2, land_63 by lia.
  rewrite (lor_high_low cp 6)
    by (try lia; change (2 ^ 6) with 64; dm_lia).
  change (2 ^ 6) with 64. dm_lia.
Qed.

(** ** UTF-8: one step of the decoder *)

Lemma in_range_true (lo hi : Z) (b : byte) :
  lo <= byte_val b <= hi -> Utf8.in_range lo hi b = true.
Proof.
  intros Hb. unfold Utf8.in_range.
  apply andb_true_iff. split; apply Z.leb_le; lia.
Qed.

Lemma code_points_cons (b : byte) (r : list byte) :
  Utf8.code_points (b :: r)
  = let x := byte_val b in
    if x <=? 127 then x :: Utf8.code_points r
    else if (194 <=? x) && (x <=? 223) then
      match r with
      | c1 :: r1 =>
          if Utf8.in_range 128 191 c1
          then Utf8.push (Z.land x 31) c1 :: Utf8.code_points r1
          else Utf8.REPLACEMENT :: Utf8.code_points r
      | [] => [Utf8.REPLACEMENT]
      end
    else if (224 <=? x) && (x <=? 239) then
      let lower := if x =? 224 then 160 else 128 in
      let upper := if x =? 237 then 159 else 191 in
      match r with
      | c1 :: r1 =>
          if Utf8.in_range lower upper c1 then
            match r1 with
            | c2 :: r2 =>
                if Utf8.in_range 128 191 c2
                then Utf8.push (Utf8.push (Z.land x 15) c1) c2
                       :: Utf8.code_points r2
                else Utf8.REPLACEMENT :: Utf8.code_points r1
            | [] => [Utf8.REPLACEMENT]
            end
          else Utf8.REPLACEMENT :: Utf8.code_points r
      | [] => [Utf8.REPLACEMENT]
      end
    else if (240 <=? x) && (x <=? 244) then
      let lower := if x =? 240 then 144 else 128 in
      let upper := if x =? 244 then 143 else 191 in
      match r with
      | c1 :: r1 =>
          if Utf8.in_range lower upper c1 then
            match r1 with
            | c2 :: r2 =>
                if Utf8.in_range 128 191 c2 then
                  match r2 with
                  | c3 :: r3 =>
                      if Utf8.in_range 128 191 c3
                      then Utf8.push
                             (Utf8.push (Utf8.push (Z.land x 7) c1) c2) c3
                             :: Utf8.code_points r3
                      else Utf8.REPLACEMENT :: Utf8.code_points r2
                  | [] => [Utf8.REPLACEMENT]
                  end
                else Utf8.REPLACEMENT :: Utf8.code_points r1
            | [] => [Utf8.REPLACEMENT]
            end
          else Utf8.REPLACEMENT :: Utf8.code_points r
      | [] => [Utf8.REPLACEMENT]
      end
    else Utf8.REPLACEMENT :: Utf8.code_points r.
Proof. reflexivity. Qed.

Lemma decode_1 (b : byte) (rest : list byte) :
  byte_val b <= 127 ->
  Utf8.code_points (b :: rest) = byte_val b :: Utf8.code_points rest.
Proof.
  intros Hb. rewrite code_points_cons. cbv zeta.
  destruct (Z.leb_spec (byte_val b) 127); [reflexivity | lia].
Qed.

Lemma decode_2 (b1 b2 : byte) (rest : list byte) :
  194 <= byte_val b1 <= 223 -> 128 <= byte_val b2 <= 191 ->
  Utf8.code_points (b1 :: b2 :: rest)
  = ((byte_val b1 - 192) * 64 + (byte_val b2 - 128))
      :: Utf8.code_points rest.
Proof.
  intros H1 H2. rewrite code_points_cons. cbv zeta.
  destruct (Z.leb_spec (byte_val b1) 127); [lia|].
  destruct (Z.leb_spec 194 (byte_val b1)); [|lia].
  destruct (Z.leb_spec (byte_val b1) 223); [|lia]. cbn [andb].
  rewrite in_range_true by assumption.
  rewrite push_value, land_31 by assumption. f_equal. dm_lia.
Qed.

Lemma decode_3 (b1 b2 b3 : byte) (rest : list byte) :
  224 <= byte_val b1 <= 239 ->
  128 <= byte_val b2 <= 191 -> 128 <= byte_val b3 <= 191 ->
  (byte_val b1 = 224 -> 160 <= byte_val b2) ->
  (byte_val b1 = 237 -> byte_val b2 <= 159) ->
  Utf8.code_points (b1 :: b2 :: b3 :: rest)
  = (((byte_val b1 - 224) * 64 + (byte_val b2 - 128)) * 64
     + (byte_val b3 - 128))
      :: Utf8.code_points rest.
Proof.
  intros H1 H2 H3 Hlo Hhi. rewrite code_points_cons. cbv zeta.
  destruct (Z.leb_spec (byte_val b1) 127); [lia|].
  destruct (Z.leb_spec 194 (byte_val b1)); [|lia].
  destruct (Z.leb_spec (byte_val b1) 223); [lia|]. cbn [andb].
  destruct (Z.leb_spec 224 (byte_val b1)); [|lia].
  destruct (Z.leb_spec (byte_val b1) 239); [|lia]. cbn [andb].
  rewrite (in_range_true _ _ b2)
    by (destruct (Z.eqb_spec (byte_val b1) 224);
        destruct (Z.eqb_spec (byte_val b1) 237); lia).
  rewrite in_range_true by assumption.
  rewrite !push_value, land_15 by assumption. f_equal. dm_lia.
Qed.

Lemma decode_4 (b1 b2 b3 b4 : byte) (rest : list byte) :
  240 <= byte_val b1 <= 244 ->
  128 <= byte_val b2 <= 191 -> 128 <= byte_val b3 <= 191 ->
  128 <= byte_val b4 <= 191 ->
  (byte_val b1 = 240 -> 144 <= byte_val b2) ->
  (byte_val b1 = 244 -> byte_val b2 <= 143) ->
  Utf8.code_points (b1 :: b2 :: b3 :: b4 :: rest)
  = ((((byte_val b1 - 240) * 64 + (byte_val b2 - 128)) * 64
      + (byte_val b3 - 128)) * 64 + (byte_val b4 - 128))
      :: Utf8.code_points rest.
Proof.
  intros H1 H2 H3 H4 Hlo Hhi. rewrite code_points_cons. cbv zeta.
  destruct (Z.leb_spec (byte_val b1) 127); [lia|].
  destruct (Z.leb_spec 194 (byte_val b1)); [|lia].
  destruct (Z.leb_spec (byte_val b1) 223); [lia|]. cbn [andb].
  destruct (Z.leb_spec 224 (byte_val b1)); [|lia].
  destruct (Z.leb_spec (byte_val b1) 239); [lia|]. cbn [andb].
  destruct (Z.leb_spec 240 (byte_val b1)); [|lia].
  destruct (Z.leb_spec (byte_val b1) 244); [|lia]. cbn [andb].
  rewrite (in_range_true _ _ b2)
    by (destruct (Z.eqb_spec (byte_val b1) 240);
        destruct (Z.eqb_spec (byte_val b1) 244); lia).
  rewrite (in_range_true _ _ b3) by assumption.
  rewrite in_range_true by assumption.
  rewrite !push_value, land_7 by assumption. f_equal. dm_lia.
Qed.

(** ** UTF-8: the encoder followed by the decoder *)

Lemma lead2_byte (q : Z) :
  0 <= q < 32 -> byte_val (u8 (Z.lor 192 q)) = 192 + q.
Proof. intros Hq. apply (marked_byte 6 5 q); lia. Qed.

Lemma lead3_byte (q : Z) :
  0 <= q < 16 -> byte_val (u8 (Z.lor 224 q)) = 224 + q.
Proof. intros Hq. apply (marked_byte 14 4 q); lia. Qed.

Lemma lead4_byte (q : Z) :
  0 <= q < 8 -> byte_val (u8 (Z.lor 240 q)) = 240 + q.
Proof. intros Hq. apply (marked_byte 30 3 q); lia. Qed.

(** Decoding the bytes of a Unicode scalar value gives it back. *)
Lemma decode_encoded_scalar (cp : Z) (rest : list byte) :
  is_scalar cp ->
  Utf8.code_points (Js.utf8_code_point cp ++ rest)
  = cp :: Utf8.code_points rest.
Proof.
  intros [Hr Hs]. unfold Js.utf8_code_point.
  destruct (Z.ltb_spec cp 128) as [H1|H1].
  { cbn [app].
    assert (E : byte_val (u8 cp) = cp)
      by (rewrite byte_val_u8; apply Z.mod_small; lia).
    rewrite decode_1 by (rewrite E; lia). rewrite E. reflexivity. }
  destruct (Z.ltb_spec cp 2048) as [H2|H2].
  { cbn [app]. rewrite shiftr_6, land_63.
    assert (E1 : byte_val (u8 (Z.lor 192 (cp / 64))) = 192 + cp / 64)
      by (apply lead2_byte; dm_lia).
    assert (E2 : byte_val (u8 (Z.lor 128 (cp mod 64))) = 128 + cp mod 64)
      by (apply continuation_byte; dm_lia).
    rewrite decode_2 by (rewrite ?E1, ?E2; dm_lia).
    rewrite E1, E2. f_equal. dm_lia. }
  destruct (Z.ltb_spec cp 65536) as [H3|H3].
  { cbn [app]. rewrite shiftr_12, shiftr_6, !land_63.
    assert (E1 : byte_val (u8 (Z.lor 224 (cp / 4096))) = 224 + cp / 4096)
      by (apply lead3_byte; dm_lia).
    assert (E2 : byte_val (u8 (Z.lor 128 ((cp / 64) mod 64)))
                 = 128 + (cp / 64) mod 64)
      by (apply continuation_byte; dm_lia).
    assert (E3 : byte_val (u8 (Z.lor 128 (cp mod 64))) = 128 + cp mod 64)
      by (apply continuation_byte; dm_lia).
    rewrite decode_3 by (rewrite ?E1, ?E2, ?E3; dm_lia).
    rewrite E1, E2, E3. f_equal. dm_lia. }
  cbn [app]. rewrite shiftr_18, shiftr_12, shiftr_6, !land_63.
  assert (E1 : byte_val (u8 (Z.lor 240 (cp / 262144))) = 240 + cp / 262144)
    by (apply lead4_byte; dm_lia).
  assert (E2 : byte_val (u8 (Z.lor 128 ((cp / 4096) mod 64)))
               = 128 + (cp / 4096) mod 64)
    by (apply continuation_byte; dm_lia).
  assert (E3 : byte_val (u8 (Z.lor 128 ((cp / 64) mod 64)))
               = 128 + (cp / 64) mod 64)
    by (apply continuation_byte; dm_lia).
  assert (E4 : byte_val (u8 (Z.lor 128 (cp mod 64))) = 128 + cp mod 64)
    by (apply continuation_byte; dm_lia).
  rewrite decode_4 by (rewrite ?E1, ?E2, ?E3, ?E4; dm_lia).
  rewrite E1, E2, E3, E4. f_equal. dm_lia.
Qed.

Lemma surrogate_bounds (c d : Z) :
  Js.is_high_surrogate c = true -> Js.is_low_surrogate d = true ->
  55296 <= c <= 56319 /\ 56320 <= d <= 57343.
Proof.
  unfold Js.is_high_surrogate, Js.is_low_surrogate.
  rewrite !andb_true_iff, !Z.leb_le. tauto.
Qed.

Lemma pair_is_scalar (c d : Z) :
  Js.is_high_surrogate c = true -> Js.is_low_surrogate d = true ->
  is_scalar (65536 + (c - 55296) * 1024 + (d - 56320)) /\
  Utf8.code_units (65536 + (c - 55296) * 1024 + (d - 56320)) = [c; d].
Proof.
  intros Hc Hd. destruct (surrogate_bounds c d Hc Hd) as [Hcr Hdr].
  split; [unfold is_scalar; lia|].
  unfold Utf8.code_units.
  destruct (Z.ltb_spec (65536 + (c - 55296) * 1024 + (d - 56320)) 65536);
    [lia|].
  rewrite shiftr_10, land_1023. f_equal; [|f_equal]; dm_lia.
Qed.

Lemma unit_is_scalar (c : Z) :
  0 <= c < 65536 ->
  Js.is_high_surrogate c = false -> Js.is_low_surrogate c = false ->
  is_scalar c /\ Utf8.code_units c = [c].
Proof.
  unfold Js.is_high_surrogate, Js.is_low_surrogate, is_scalar, Utf8.code_units.
  rewrite !andb_false_iff, !Z.leb_gt. intros Hr Hh Hl.
  split; [lia|]. destruct (Z.ltb_spec c 65536); [reflexivity | lia].
Qed.

Lemma decode_encoded_string (n : nat) :
  forall s : jsstring,
    (length s <= n)%nat -> well_formed s ->
    flat_map Utf8.code_units (Utf8.code_points (Js.TextEncoder_encode s)) = s.
Proof.
  induction n as [|n IH]; intros [|c rest] Hlen Hwf; try reflexivity.
  - simpl in Hlen. lia.
  - cbn [Js.TextEncoder_encode well_formed] in *.
    destruct Hwf as [Hc Hwf].
    destruct (Js.is_high_surrogate c) eqn:Hh.
    + destruct rest as [|d rest']; [contradiction|].
      destruct Hwf as [Hd Hwf]. rewrite Hd.
      destruct (pair_is_scalar c d Hh Hd) as [Hs Hu].
      rewrite decode_encoded_scalar by assumption.
      cbn [flat_map]. rewrite Hu, IH; [reflexivity | | assumption].
      simpl in Hlen. lia.
    + destruct Hwf as [Hl Hwf]. rewrite Hl.
      destruct (unit_is_scalar c Hc Hh Hl) as [Hs Hu].
      rewrite decode_encoded_scalar by assumption.
      cbn [flat_map]. rewrite Hu, IH; [reflexivity | | assumption].
      simpl in Hlen. lia.
Qed.

(** The byte order mark *)

Lemma strip_bom_other_lead (b : byte) (r : list byte) :
  byte_val b <> 239 -> Utf8.strip_bom (b :: r) = b :: r.
Proof.
  intros Hb. unfold Utf8.strip_bom. destruct r as [|b1 [|b2 r]]; try reflexivity.
  destruct (Z.eqb_spec (byte_val b) 239); [contradiction | reflexivity].
Qed.

Lemma strip_bom_nil : Utf8.strip_bom [] = [].
Proof. reflexivity. Qed.

(** The encoding of a well-formed string starts with EF BB BF only when
    the string starts with U+FEFF. *)
Lemma strip_bom_encoded (s : jsstring) :
  well_formed s -> (forall rest, s <> 65279 :: rest) ->
  Utf8.strip_bom (Js.TextEncoder_encode s) = Js.TextEncoder_encode s.
Proof.
  intros Hwf Hnb. destruct s as [|c rest]; [reflexivity|].
  assert (Hc' : c <> 65279) by (intros ->; apply (Hnb rest); reflexivity).
  cbn [Js.TextEncoder_encode well_formed] in *.
  destruct Hwf as [Hc Hwf].
  destruct (Js.is_high_surrogate c) eqn:Hh.
  - destruct rest as [|d rest']; [contradiction|].
    destruct Hwf as [Hd Hwf]. rewrite Hd.
    destruct (surrogate_bounds c d Hh Hd) as [Hcr Hdr].
    unfold Js.utf8_code_point.
    destruct (Z.ltb_spec (65536 + (c - 55296) * 1024 + (d - 56320)) 128); [lia|].
    destruct (Z.ltb_spec (65536 + (c - 55296) * 1024 + (d - 56320)) 2048); [lia|].
    destruct (Z.ltb_spec (65536 + (c - 55296) * 1024 + (d - 56320)) 65536); [lia|].
    cbn [app]. apply strip_bom_other_lead.
    rewrite shiftr_18, lead4_byte by dm_lia. dm_lia.
  - destruct Hwf as [Hl Hwf]. rewrite Hl.
    destruct (unit_is_scalar c Hc Hh Hl) as [[_ Hns] _].
    unfold Js.utf8_code_point.
    destruct (Z.ltb_spec c 128).
    { cbn [app]. apply strip_bom_other_lead.
      rewrite byte_val_u8, Z.mod_small by lia. lia. }
    destruct (Z.ltb_spec c 2048).
    { cbn [app]. apply strip_bom_other_lead.
      rewrite shiftr_6, lead2_byte by dm_lia. dm_lia. }
    destruct (Z.ltb_spec c 65536); [|lia].
    cbn [app]. unfold Utf8.strip_bom.
    rewrite shiftr_12, shiftr_6, !land_63.
    rewrite lead3_byte, !continuation_byte by dm_lia.
    destruct (Z.eqb_spec (224 + c / 4096) 239); [|reflexivity].
    destruct (Z.eqb_spec (128 + (c / 64) mod 64) 187); [|reflexivity].
    destruct (Z.eqb_spec (128 + c mod 64) 191); [|reflexivity].
    exfalso. apply Hc'. dm_lia.
Qed.

Lemma encode_bom_first (s : jsstring) :
  Js.TextEncoder_encode (65279 :: s)
  = u8 239 :: u8 187 :: u8 191 :: Js.TextEncoder_encode s.
Proof. reflexivity. Qed.

Lemma TextDecoder_TextEncoder (s : jsstring) :
  well_formed s -> (forall rest, s <> 65279 :: rest) ->
  Utf8.TextDecoder_decode (Js.TextEncoder_encode s) = s.
Proof.
  intros Hwf Hnb. unfold Utf8.TextDecoder_decode.
  rewrite strip_bom_encoded by assumption.
  apply (decode_encoded_string (length s)); [lia | assumption].
Qed.

Lemma TextDecoder_TextEncoder_bom (s : jsstring) :
  well_formed s ->
  Utf8.TextDecoder_decode (Js.TextEncoder_encode (65279 :: s)) = s.
Proof.
  intros Hwf. unfold Utf8.TextDecoder_decode. rewrite encode_bom_first.
  change (Utf8.strip_bom (u8 239 :: u8 187 :: u8 191 :: Js.TextEncoder_encode s))
    with (Js.TextEncoder_encode s).
  apply (decode_encoded_string (length s)); [lia | assumption].
Qed.

(** ** Strings through the encryption layer *)

Lemma decrypt_after_encrypt (c : CompatibleCrypto) (S : bigint)
    (data : Data) (w : World) :
  digest_lengths c ->
  decrypt c S (iv (fst (encrypt c S data w)))
              (ciphertext (fst (encrypt c S data w)))
  = inr (plaintext_bytes data).
Proof.
  intros Hlen. rewrite encrypt_eq. cbn [fst iv ciphertext].
  apply decrypt_sealed. assumption.
Qed.

(** X22 — [decryptToString] gives back the string that was encrypted,
    for every string of Unicode scalar values (surrogates only in pairs)
    that does not begin with U+FEFF. *)
Theorem decryptToString_roundtrip (c : CompatibleCrypto) (S : bigint)
    (s : jsstring) (w : World) :
  digest_lengths c -> well_formed s -> (forall rest, s <> 65279 :: rest) ->
  decryptToString c S
    (iv (fst (encrypt c S (DataString s) w)))
    (ciphertext (fst (encrypt c S (DataString s) w)))
  = inr s.
Proof.
  intros Hlen Hwf Hnb. unfold decryptToString.
  rewrite decrypt_after_encrypt by assumption.
  cbn [plaintext_bytes]. rewrite TextDecoder_TextEncoder by assumption.
  reflexivity.
Qed.

Lemma decryptToString_roundtrip_witness :
  decryptToString toy_crypto 12345
    (iv (fst (encrypt toy_crypto 12345
                (DataString [72; 233; 8364; 55357; 56832]) toy_world)))
    (ciphertext (fst (encrypt toy_crypto 12345
                        (DataString [72; 233; 8364; 55357; 56832]) toy_world)))
  = inr [72; 233; 8364; 55357; 56832].
Proof.
  apply (decryptToString_roundtrip toy_crypto 12345
           [72; 233; 8364; 55357; 56832] toy_world).
  - exact toy_digest_lengths.
  - cbn. repeat split; lia.
  - intros rest. discriminate.
Defined.

(** X23 — a leading U+FEFF does not survive: the decoder takes the bytes
    EF BB BF for a byte order mark, and [decryptToString] returns the
    string without its first character. *)
Theorem decryptToString_drops_bom (c : CompatibleCrypto) (S : bigint)
    (s : jsstring) (w : World) :
  digest_lengths c -> well_formed s ->
  decryptToString c S
    (iv (fst (encrypt c S (DataString (65279 :: s)) w)))
    (ciphertext (fst (encrypt c S (DataString (65279 :: s)) w)))
  = inr s.
Proof.
  intros Hlen Hwf. unfold decryptToString.
  rewrite decrypt_after_encrypt by assumption.
  cbn [plaintext_bytes]. rewrite TextDecoder_TextEncoder_bom by assumption.
  reflexivity.
Qed.

Lemma decryptToString_drops_bom_witness :
  decryptToString toy_crypto 12345
    (iv (fst (encrypt toy_crypto 12345 (DataString (65279 :: [104; 105]))
                toy_world)))
    (ciphertext (fst (encrypt toy_crypto 12345
                        (DataString (65279 :: [104; 105])) toy_world)))
  = inr [104; 105].
Proof.
  apply (decryptToString_drops_bom toy_crypto 12345 [104; 105] toy_world).
  - exact toy_digest_lengths.
  - cbn. repeat split; lia.
Defined.

(** ** [stringToArrayBuffer] *)

(** X24 — [stringToArrayBuffer] is injective on strings of Unicode scalar
    values: two different identities or passwords never give the same
    bytes. *)
Theorem stringToArrayBuffer_injective (s1 s2 : jsstring) :
  well_formed s1 -> well_formed s2 -> s1 <> s2 ->
  stringToArrayBuffer s1 <> stringToArrayBuffer s2.
Proof.
  unfold stringToArrayBuffer. intros H1 H2 Hne Heq. apply Hne.
  rewrite <- (decode_encoded_string (length s1) s1 (Nat.le_refl _) H1).
  rewrite <- (decode_encoded_string (length s2) s2 (Nat.le_refl _) H2).
  rewrite Heq. reflexivity.
Qed.

Lemma stringToArrayBuffer_injective_witness :
  stringToArrayBuffer [97; 233] <> stringToArrayBuffer [97; 234].
Proof.
  apply (stringToArrayBuffer_injective [97; 233] [97; 234]).
  - cbn. repeat split; lia.
  - cbn. repeat split; lia.
  - discriminate.
Defined.

Lemma encode_ascii (s : jsstring) :
  ascii_string s -> Js.TextEncoder_encode s = map u8 s.
Proof.
  induction 1 as [|c s Hc _ IH]; [reflexivity|].
  cbn [Js.TextEncoder_encode map].
  unfold Js.is_high_surrogate, Js.is_low_surrogate.
  destruct (Z.leb_spec 55296 c); [lia|]. cbn [andb].
  destruct (Z.leb_spec 56320 c); [lia|]. cbn [andb].
  unfold Js.utf8_code_point. destruct (Z.ltb_spec c 128); [|lia].
  cbn [app]. rewrite IH. reflexivity.
Qed.

(** X25 — an ASCII string is encoded with one byte per character, the
    byte being the character code. *)
Theorem stringToArrayBuffer_ascii (s : jsstring) :
  ascii_string s ->
  stringToArrayBuffer s = map u8 s /\
  length (stringToArrayBuffer s) = length s /\
  map byte_val (stringToArrayBuffer s) = s.
Proof.
  intros Ha. unfold stringToArrayBuffer. rewrite encode_ascii by assumption.
  split; [reflexivity|]. split; [apply length_map|].
  induction Ha as [|c s Hc _ IH]; [reflexivity|].
  cbn [map]. rewrite IH, byte_val_u8, Z.mod_small by lia. reflexivity.
Qed.

Lemma stringToArrayBuffer_ascii_witness :
  stringToArrayBuffer (lit "alice") = map u8 (lit "alice") /\
  length (stringToArrayBuffer (lit "alice")) = length (lit "alice") /\
  map byte_val (stringToArrayBuffer (lit "alice")) = lit "alice".
Proof.
  apply (stringToArrayBuffer_ascii (lit "alice")).
  repeat constructor; vm_compute; discriminate.
Defined.
